(** * fixrg: read-group rewriting of an alignment container

    A shallow embedding of [fixrg.py] and the properties of its two-pass
    read-group resolution.

    Conventions of the embedding.
    - A Python [str] is a Rocq [string], read as the UTF-8 encoding of the
      text.  The separators and placeholders of the script are ASCII, so
      splitting, searching and replacing agree on bytes and on code points,
      and the byte-wise lexicographic order is the code-point order Python
      uses to compare strings.
    - An attribute mapping (a read-group template, a resolved read group, a
      header line, the tags of a record) is a [gmap string string]: the
      script only looks keys up, overwrites them and compares values.
    - The two dictionaries whose iteration order the script observes
      ([final_rgs], fed to the stable [sorted], and [counts], printed in
      first-seen order) are insertion-ordered dictionaries, module [PyDict].
    - Tag values and attribute values are text, as the script writes them
      (type [Z]) and as the template file and the header give them; [str] of
      a text is the text.
    - An uncaught Python exception ([IndexError], a failed unpacking) is the
      result [None]. *)

From Stdlib Require Import Ascii.
From Stdlib Require String.
From stdpp Require Import base option list gmap strings sorting lexico.

(** ** Python string operations used by the script *)

Module PyStr.

(** [sub in s] *)
Fixpoint contains (sub s : string) : bool :=
  String.prefix sub s ||
  match s with
  | EmptyString => false
  | String _ s' => contains sub s'
  end.

(** [s.split(sep)] for a one-character separator: every occurrence of the
    separator ends a field, empty fields are kept. *)
Fixpoint split (sep : ascii) (s : string) : list string :=
  match s with
  | EmptyString => [EmptyString]
  | String c s' =>
      if Ascii.eqb c sep then EmptyString :: split sep s'
      else match split sep s' with
           | f :: fs => String c f :: fs
           | [] => [String c EmptyString]
           end
  end.

(** [s.split(sep, 1)]: at most one split, at the first separator. *)
Fixpoint split1 (sep : ascii) (s : string) : list string :=
  match s with
  | EmptyString => [EmptyString]
  | String c s' =>
      if Ascii.eqb c sep then [EmptyString; s']
      else match split1 sep s' with
           | f :: fs => String c f :: fs
           | [] => [String c EmptyString]
           end
  end.

(** [sep.join(fields)] *)
Fixpoint join (sep : ascii) (fields : list string) : string :=
  match fields with
  | [] => EmptyString
  | [f] => f
  | f :: fs => f +:+ String sep (join sep fs)
  end.

(** The scan of [s.replace(old, new)] for a non-empty [old]: [skip] counts
    the characters of a match that are still to be dropped. *)
Fixpoint replace_go (old new : string) (skip : nat) (s : string) : string :=
  match s with
  | EmptyString => EmptyString
  | String c s' =>
      match skip with
      | S n => replace_go old new n s'
      | O =>
          if String.prefix old s
          then new +:+ replace_go old new (String.length old - 1) s'
          else String c (replace_go old new 0 s')
      end
  end.

(** [s.replace("", new)] puts [new] before every character and at the end. *)
Fixpoint intersperse (new s : string) : string :=
  match s with
  | EmptyString => new
  | String c s' => new +:+ String c (intersperse new s')
  end.

(** [s.replace(old, new)]: all non-overlapping occurrences, left to right. *)
Definition replace (old new s : string) : string :=
  match old with
  | EmptyString => intersperse new s
  | String _ _ => replace_go old new 0 s
  end.

(** Occurrences of a character. *)
Fixpoint count (c : ascii) (s : string) : nat :=
  match s with
  | EmptyString => 0
  | String c' s' => (if Ascii.eqb c' c then 1 else 0) + count c s'
  end.

End PyStr.

(** ** Insertion-ordered dictionaries (Python [dict]) *)

Module PyDict.
Section dict.
Context {V : Type}.

Definition t : Type := list (string * V).

Definition empty : t := [].

(** [d.get(k)] *)
Fixpoint get (d : t) (k : string) : option V :=
  match d with
  | [] => None
  | (k', v) :: d' => if String.eqb k' k then Some v else get d' k
  end.

(** [d[k] = v]: an existing key keeps its position, a new key goes last. *)
Fixpoint set (d : t) (k : string) (v : V) : t :=
  match d with
  | [] => [(k, v)]
  | (k', v') :: d' =>
      if String.eqb k' k then (k', v) :: d' else (k', v') :: set d' k v
  end.

Definition keys (d : t) : list string := d.*1.
Definition values (d : t) : list V := d.*2.
End dict.
Arguments t : clear implicits.
End PyDict.

(** ** The script *)

(** An attribute mapping: template, resolved read group, header line. *)
Abbreviation attrs := (gmap string string).

(** [get_flowcell_lane], lines 44-49.  Indexing is partial, as in Python. *)
Definition get_flowcell_lane (read_name : string) : option (string * string) :=
  let parts := PyStr.split ":"%char read_name in
  if bool_decide (4 ≤ length parts) then
    fc ← parts !! 2; lane ← parts !! 3; Some (fc, lane)
  else Some ("unknown_fc", "unknown_lane").

(** [resolve_rg], lines 51-60: every value has [[FLOWCELL]] replaced first and
    [[LANE]] replaced in the result; keys are kept. *)
Definition resolve_value (flowcell lane v : string) : string :=
  let v := if PyStr.contains "[FLOWCELL]" v
           then PyStr.replace "[FLOWCELL]" flowcell v else v in
  let v := if PyStr.contains "[LANE]" v
           then PyStr.replace "[LANE]" lane v else v in
  v.

Definition resolve_rg (rg_template : attrs) (flowcell lane : string) : attrs :=
  resolve_value flowcell lane <$> rg_template.

(** A record of the container.  The script reads its name, reads and writes
    its tags, and forwards everything else untouched. *)
Record AlignedSegment : Type := mkRead {
  query_name : string;
  tags : attrs;
  alignment : string
}.

Definition get_tag (read : AlignedSegment) (tag : string) : option string :=
  tags read !! tag.

(** [read.set_tag(tag, value, value_type='Z')] *)
Definition set_tag (read : AlignedSegment) (tag value : string) : AlignedSegment :=
  {| query_name := query_name read;
     tags := <[tag := value]> (tags read);
     alignment := alignment read |}.

(** The header as [header.to_dict()] gives it: [HD] is one mapping, [SQ],
    [RG] and [PG] are lists of mappings, [CO] is a list of comment lines. *)
Inductive section : Type :=
  | Single (line : attrs)
  | Lines (lines : list attrs)
  | Comments (lines : list string).

Abbreviation header := (gmap string section).

(** [in_bam.header.get('RG', [])] *)
Definition header_RG (hdr : header) : list attrs :=
  match hdr !! "RG" with
  | Some (Lines entries) => entries
  | _ => []
  end.

(** Lines 66-71. *)
Definition has_placeholder (v : string) : bool :=
  PyStr.contains "[FLOWCELL]" v || PyStr.contains "[LANE]" v.

Definition placeholders (rgs_data : list attrs) : bool :=
  existsb (λ rg : attrs, existsb has_placeholder (map_to_list rg).*2) rgs_data.

(** Lines 82-84. *)
Definition build_rg_to_lb (entries : list attrs) : attrs :=
  foldl (λ (rg_to_lb : attrs) (rg_entry : attrs),
           match rg_entry !! "ID", rg_entry !! "LB" with
           | Some id, Some lb => <[id := lb]> rg_to_lb
           | _, _ => rg_to_lb
           end) ∅ entries.

(** *** First pass, lines 86-105 *)

(** Lines 89-94. *)
Definition pass1_current_lb (preserve_lb : bool) (rg_to_lb : attrs)
    (read : AlignedSegment) : option string :=
  if preserve_lb then
    match get_tag read "LB" with
    | Some lb => Some lb
    | None =>
        match get_tag read "RG" with
        | Some rg => rg_to_lb !! rg
        | None => None
        end
    end
  else None.

(** Lines 97-103: the mapping a template resolves to for one record. *)
Definition pass1_resolved (template : attrs) (fc lane : string)
    (current_lb : option string) : attrs :=
  let resolved := resolve_rg template fc lane in
  match current_lb with
  | Some lb =>
      let resolved := <["LB" := lb]> resolved in
      match resolved !! "ID" with
      | Some id => <["ID" := id +:+ "." +:+ lb]> resolved
      | None => <["ID" := lb]> resolved
      end
  | None => resolved
  end.

(** Lines 104-105. *)
Definition upsert (final_rgs : PyDict.t attrs) (resolved : attrs) : PyDict.t attrs :=
  match resolved !! "ID" with
  | Some id => PyDict.set final_rgs id resolved
  | None => final_rgs
  end.

(** Lines 87-105, the body of the loop over the records. *)
Definition pass1_read (preserve_lb : bool) (rg_to_lb : attrs) (rgs_data : list attrs)
    (final_rgs : PyDict.t attrs) (read : AlignedSegment) : option (PyDict.t attrs) :=
  '(fc, lane) ← get_flowcell_lane (query_name read);
  let current_lb := pass1_current_lb preserve_lb rg_to_lb read in
  Some (foldl (λ final_rgs template,
                 upsert final_rgs (pass1_resolved template fc lane current_lb))
              final_rgs rgs_data).

Fixpoint pass1_reads (preserve_lb : bool) (rg_to_lb : attrs) (rgs_data : list attrs)
    (final_rgs : PyDict.t attrs) (reads : list AlignedSegment)
    : option (PyDict.t attrs) :=
  match reads with
  | [] => Some final_rgs
  | read :: reads' =>
      final_rgs ← pass1_read preserve_lb rg_to_lb rgs_data final_rgs read;
      pass1_reads preserve_lb rg_to_lb rgs_data final_rgs reads'
  end.

(** Lines 107-109: without a first pass the templates themselves are
    registered. *)
Definition literal_rgs (rgs_data : list attrs) : PyDict.t attrs :=
  foldl upsert PyDict.empty rgs_data.

(** Line 75. *)
Definition need_pass1 (rgs_data : list attrs) (preserve_lb : bool) : bool :=
  placeholders rgs_data || preserve_lb.

(** Lines 76-84: the library index, empty unless libraries are preserved. *)
Definition rg_to_lb_of (hdr : header) (preserve_lb : bool) : attrs :=
  if preserve_lb then build_rg_to_lb (header_RG hdr) else ∅.

(** Lines 73-109: the final read-group set. *)
Definition final_rgs_of (hdr : header) (reads : list AlignedSegment)
    (rgs_data : list attrs) (preserve_lb : bool) : option (PyDict.t attrs) :=
  if need_pass1 rgs_data preserve_lb then
    pass1_reads preserve_lb (rg_to_lb_of hdr preserve_lb) rgs_data PyDict.empty reads
  else Some (literal_rgs rgs_data).

(** *** Header rewriting, lines 114-122 *)

(** [sorted(xs, key=key)]: Python's sort is stable and only asks whether one
    key is less than another.  Every stable sort returns the same list; the
    definition is the insertion sort that puts an element before the first
    later element whose key is not smaller. *)
Section sorted.
Context {A K : Type} (key : A → K) (lt : K → K → bool).

Fixpoint insert_stable (x : A) (l : list A) : list A :=
  match l with
  | [] => [x]
  | y :: l' => if lt (key y) (key x) then y :: insert_stable x l' else x :: l
  end.

Definition py_sorted (l : list A) : list A := foldr insert_stable [] l.

(** The order a sort by [lt] establishes: no later key is less than an
    earlier one. *)
Definition not_after (x y : A) : Prop := lt (key y) (key x) = false.
End sorted.

(** The key of line 120, with [x.get(k, '')]. *)
Definition sort_key (x : attrs) : string * string * string :=
  (default "" (x !! "SM"), default "" (x !! "LB"), default "" (x !! "ID")).

(** Python's [<] on tuples of three strings: the first differing component
    decides. *)
Definition key_ltb (a b : string * string * string) : bool :=
  let '(a1, a2, a3) := a in
  let '(b1, b2, b3) := b in
  if String.eqb a1 b1 then
    if String.eqb a2 b2 then String.ltb a3 b3 else String.ltb a2 b2
  else String.ltb a1 b1.

Definition sorted_rgs (final_rgs : PyDict.t attrs) : list attrs :=
  py_sorted sort_key key_ltb (PyDict.values final_rgs).

(** Lines 114-122.  The list stored under ['RG'] on line 115 is the object the
    loop of lines 121-122 appends to. *)
Definition rewrite_header (hdr : header) (final_rgs : PyDict.t attrs)
    (strip_pg : bool) : header :=
  let header := <["RG" := Lines []]> hdr in
  let header :=
    if strip_pg && bool_decide (is_Some (header !! "PG"))
    then delete "PG" header else header in
  let rg_section := foldl (λ section rg, section ++ [rg]) [] (sorted_rgs final_rgs) in
  <["RG" := Lines rg_section]> header.

(** *** Second pass, lines 130-167 *)

(** Lines 137-142. *)
Definition pass2_current_lb (preserve_lb : bool) (rg_to_lb : attrs)
    (read : AlignedSegment) : option string :=
  if preserve_lb then
    match get_tag read "LB" with
    | Some lb => Some lb
    | None =>
        match get_tag read "RG" with
        | Some rg => rg_to_lb !! rg
        | None => None
        end
    end
  else None.

(** Lines 132-158: the candidate identifier [rg_id] and the mapping
    [resolved] of one record. *)
Definition pass2_assign (need_pass1 preserve_lb : bool) (rg_to_lb : attrs)
    (rgs_data : list attrs) (read : AlignedSegment)
    : option (option string * attrs) :=
  if need_pass1 then
    '(fc, lane) ← get_flowcell_lane (query_name read);
    let current_lb := pass2_current_lb preserve_lb rg_to_lb read in
    match rgs_data with
    | template :: _ =>
        let resolved := resolve_rg template fc lane in
        let resolved :=
          match current_lb with
          | Some lb =>
              let resolved := <["LB" := lb]> resolved in
              match resolved !! "ID" with
              | Some id => <["ID" := id +:+ "." +:+ lb]> resolved
              | None => <["ID" := lb]> resolved
              end
          | None => resolved
          end in
        Some (resolved !! "ID", resolved)
    | [] => Some (None, ∅)
    end
  else
    match rgs_data with
    | resolved :: _ => Some (resolved !! "ID", resolved)
    | [] => Some (None, ∅)
    end.

(** Line 160: [if rg_id:] holds for a string that is not empty. *)
Definition truthy (rg_id : option string) : bool :=
  match rg_id with
  | Some (String _ _) => true
  | _ => false
  end.

(** Lines 160-161. *)
Definition assign_tag (rg_id : option string) (read : AlignedSegment) : AlignedSegment :=
  match rg_id with
  | Some id => if truthy rg_id then set_tag read "RG" id else read
  | None => read
  end.

(** Line 164. *)
Definition count_bucket (read : AlignedSegment) : string :=
  match get_tag read "RG" with
  | Some rg => rg
  | None => "None"
  end.

(** Line 165, on a [defaultdict(int)]. *)
Definition increment (counts : PyDict.t nat) (rg_id : string) : PyDict.t nat :=
  PyDict.set counts rg_id (default 0 (PyDict.get counts rg_id) + 1).

(** What the second pass has produced so far: the records written to the
    output container, in order, and the counts. *)
Record output : Type := mkOutput {
  written : list AlignedSegment;
  counts : PyDict.t nat
}.

(** Lines 132-167, the body of the loop over the records. *)
Definition pass2_read (need_pass1 preserve_lb : bool) (rg_to_lb : attrs)
    (rgs_data : list attrs) (out : output) (read : AlignedSegment) : option output :=
  '(rg_id, _) ← pass2_assign need_pass1 preserve_lb rg_to_lb rgs_data read;
  let read := assign_tag rg_id read in
  let rg_id := count_bucket read in
  Some {| written := written out ++ [read];
          counts := increment (counts out) rg_id |}.

Fixpoint pass2_reads (need_pass1 preserve_lb : bool) (rg_to_lb : attrs)
    (rgs_data : list attrs) (out : output) (reads : list AlignedSegment)
    : option output :=
  match reads with
  | [] => Some out
  | read :: reads' =>
      out ← pass2_read need_pass1 preserve_lb rg_to_lb rgs_data out read;
      pass2_reads need_pass1 preserve_lb rg_to_lb rgs_data out reads'
  end.

(** *** [process_bam], lines 62-171 *)

Record result : Type := mkResult {
  out_header : header;
  out_reads : list AlignedSegment;
  out_counts : PyDict.t nat
}.

(** The container is opened twice; both passes see the same header and the
    same records in the same order.  [hdr] and [reads] are what the container
    library delivers for a container it opens, reads and writes without
    complaint: when the library raises [ValueError] the script leaves through
    lines 172-174, which is no result of this function.  [None] is an
    exception the script itself raises and does not catch. *)
Definition process_bam (hdr : header) (reads : list AlignedSegment)
    (rgs_data : list attrs) (preserve_lb strip_pg : bool) : option result :=
  let need := need_pass1 rgs_data preserve_lb in
  let rg_to_lb := rg_to_lb_of hdr preserve_lb in
  final_rgs ← final_rgs_of hdr reads rgs_data preserve_lb;
  let header := rewrite_header hdr final_rgs strip_pg in
  out ← pass2_reads need preserve_lb rg_to_lb rgs_data
         {| written := []; counts := PyDict.empty |} reads;
  Some {| out_header := header;
          out_reads := written out;
          out_counts := counts out |}.

(** *** [main], lines 178-193 *)

(** Lines 187-191.  Unpacking [k, v = ...] fails unless the split gives two
    fields. *)
Definition add_tag (extra_tags : attrs) (tag_str : string) : option attrs :=
  if PyStr.contains ":" tag_str then
    match PyStr.split1 ":"%char tag_str with
    | [k; v] => Some (<[k := v]> extra_tags)
    | _ => None
    end
  else Some extra_tags.

Fixpoint extra_tags_of (extra_tags : attrs) (tags : list string) : option attrs :=
  match tags with
  | [] => Some extra_tags
  | tag_str :: tags' =>
      extra_tags ← add_tag extra_tags tag_str;
      extra_tags_of extra_tags tags'
  end.

(** Lines 186-193.  [rg.update(extra_tags)] lets the override win. *)
Definition merge_tags (tags : option (list string)) (rgs_data : list attrs)
    : option (list attrs) :=
  match tags with
  | Some ((_ :: _) as tags) =>
      extra_tags ← extra_tags_of ∅ tags;
      Some ((λ rg : attrs, extra_tags ∪ rg) <$> rgs_data)
  | _ => Some rgs_data
  end.

(** Lines 178-193: the templates handed to [process_bam].  [rgs_file] holds
    the rows [read_rgs] read when a template file was given and could be
    read, every row giving a text for every column; the outer [None] is the
    exit of line 179. *)
Definition main_rgs_data (rgs_file : option (list attrs)) (tags : option (list string))
    : option (option (list attrs)) :=
  match rgs_file, tags with
  | None, None | None, Some [] => None
  | _, _ =>
      let rgs_data := match rgs_file with Some rows => rows | None => [∅] end in
      Some (merge_tags tags rgs_data)
  end.

(** ** Definitions used to state the properties *)

Definition fallback : string * string := ("unknown_fc", "unknown_lane").

(** The tokens of a name, as a total function. *)
Definition flowcell_lane (read_name : string) : string * string :=
  default fallback (get_flowcell_lane read_name).

(** The mapping the first pass resolves a template to for a record. *)
Definition resolved_for (preserve_lb : bool) (rg_to_lb : attrs)
    (read : AlignedSegment) (template : attrs) : attrs :=
  pass1_resolved template
    (flowcell_lane (query_name read)).1 (flowcell_lane (query_name read)).2
    (pass1_current_lb preserve_lb rg_to_lb read).

(** The mappings the first pass offers to the final set, in order. *)
Definition upserts (preserve_lb : bool) (rg_to_lb : attrs) (rgs_data : list attrs)
    (reads : list AlignedSegment) : list attrs :=
  read ← reads; resolved_for preserve_lb rg_to_lb read <$> rgs_data.

(** The final set as a total function of the inputs. *)
Definition final_rgs (hdr : header) (reads : list AlignedSegment)
    (rgs_data : list attrs) (preserve_lb : bool) : PyDict.t attrs :=
  if need_pass1 rgs_data preserve_lb
  then foldl upsert PyDict.empty
         (upserts preserve_lb (rg_to_lb_of hdr preserve_lb) rgs_data reads)
  else literal_rgs rgs_data.

(** The candidate identifier of a record in the second pass. *)
Definition candidate (need preserve_lb : bool) (rg_to_lb : attrs)
    (rgs_data : list attrs) (read : AlignedSegment) : option string :=
  (default (None, ∅) (pass2_assign need preserve_lb rg_to_lb rgs_data read)).1.

(** The record the second pass writes for a record of the source. *)
Definition rewritten (need preserve_lb : bool) (rg_to_lb : attrs)
    (rgs_data : list attrs) (read : AlignedSegment) : AlignedSegment :=
  assign_tag (candidate need preserve_lb rg_to_lb rgs_data read) read.

(** Every entry of the final set sits under its own [ID], and no key occurs
    twice. *)
Definition well_keyed (d : PyDict.t attrs) : Prop :=
  NoDup (PyDict.keys d) ∧ Forall (λ kv, kv.2 !! "ID" = Some kv.1) d.

(** Python's [<] on strings, and through stdpp's lexicographic product its
    [<] on the tuples [(SM, LB, ID)]. *)
Global Instance string_lexico : Lexico string := λ a b, String.ltb a b = true.

(** Ascending order of the keys. *)
Definition key_le (a b : string * string * string) : Prop := a = b ∨ lexico a b.

(** The override a [--tag] string stands for, if any. *)
Definition parse_tag (tag_str : string) : option (string * string) :=
  if PyStr.contains ":" tag_str then
    match PyStr.split1 ":"%char tag_str with
    | [k; v] => Some (k, v)
    | _ => None
    end
  else None.

Definition override (extra_tags : attrs) (tag_str : string) : attrs :=
  match parse_tag tag_str with
  | Some (k, v) => <[k := v]> extra_tags
  | None => extra_tags
  end.

(** All the mappings a run of the first pass offers under one key are the
    same mapping. *)
Definition same_key_same_value (preserve_lb : bool) (rg_to_lb : attrs)
    (rgs_data : list attrs) (reads : list AlignedSegment) : Prop :=
  ∀ r1 r2 t1 t2 fc1 lane1 fc2 lane2,
    r1 ∈ reads → r2 ∈ reads → t1 ∈ rgs_data → t2 ∈ rgs_data →
    get_flowcell_lane (query_name r1) = Some (fc1, lane1) →
    get_flowcell_lane (query_name r2) = Some (fc2, lane2) →
    let m1 := pass1_resolved t1 fc1 lane1 (pass1_current_lb preserve_lb rg_to_lb r1) in
    let m2 := pass1_resolved t2 fc2 lane2 (pass1_current_lb preserve_lb rg_to_lb r2) in
    is_Some (m1 !! "ID") → m1 !! "ID" = m2 !! "ID" → m1 = m2.

(** ** Template values in pieces *)

(** A template value written as literal text and placeholders. *)
Inductive piece : Type :=
  | Text (s : string)
  | Flowcell
  | Lane.

(** The value as it stands in the template. *)
Fixpoint render (pieces : list piece) : string :=
  match pieces with
  | [] => ""
  | Text s :: pieces' => s +:+ render pieces'
  | Flowcell :: pieces' => "[FLOWCELL]" +:+ render pieces'
  | Lane :: pieces' => "[LANE]" +:+ render pieces'
  end.

(** The value with the tokens of a record in the place of the placeholders. *)
Fixpoint fill (flowcell lane : string) (pieces : list piece) : string :=
  match pieces with
  | [] => ""
  | Text s :: pieces' => s +:+ fill flowcell lane pieces'
  | Flowcell :: pieces' => flowcell +:+ fill flowcell lane pieces'
  | Lane :: pieces' => lane +:+ fill flowcell lane pieces'
  end.

(** No opening bracket, the character every placeholder starts with. *)
Definition bracket_free (s : string) : Prop := PyStr.count "[" s = 0.

Definition text_bracket_free (p : piece) : Prop :=
  match p with
  | Text s => bracket_free s
  | _ => True
  end.

(** The buckets of a list in the order in which they are first seen. *)
Fixpoint first_seen (seen buckets : list string) : list string :=
  match buckets with
  | [] => []
  | b :: buckets' =>
      if bool_decide (b ∈ seen) then first_seen seen buckets'
      else b :: first_seen (seen ++ [b]) buckets'
  end.

(** * Properties *)

(** ** Strings *)

Module PyStrFacts.
Import PyStr.

Lemma split_cons sep s : ∃ f fs, split sep s = f :: fs.
Proof.
  destruct s as [|c s]; simpl; [by eauto|].
  destruct (Ascii.eqb c sep); [by eauto|].
  destruct (split sep s); eauto.
Qed.

Lemma split_length sep s : length (split sep s) = S (count sep s).
Proof.
  induction s as [|c s IH]; simpl; [done|].
  destruct (Ascii.eqb c sep); simpl; [by rewrite IH|].
  destruct (split_cons sep s) as (f & fs & E). rewrite E in IH |- *. done.
Qed.

Lemma join_cons sep f g fs :
  join sep (f :: g :: fs) = f +:+ String sep (join sep (g :: fs)).
Proof. done. Qed.

Lemma split_join sep s : join sep (split sep s) = s.
Proof.
  induction s as [|c s IH]; simpl; [done|].
  destruct (Ascii.eqb_spec c sep) as [->|Hne].
  - destruct (split_cons sep s) as (f & fs & E).
    rewrite E in IH |- *. rewrite join_cons, IH. done.
  - destruct (split_cons sep s) as (f & fs & E).
    rewrite E in IH |- *. destruct fs as [|g fs].
    + simpl in *. by rewrite IH.
    + rewrite join_cons in IH |- *. rewrite <-IH. done.
Qed.

Lemma split_no_sep sep s : Forall (λ f, count sep f = 0) (split sep s).
Proof.
  induction s as [|c s IH]; simpl; [by repeat constructor|].
  destruct (Ascii.eqb c sep) eqn:Hc; [by constructor|].
  destruct (split_cons sep s) as (f & fs & E). rewrite E in IH |- *.
  inv IH. constructor; [|done]. simpl. by rewrite Hc.
Qed.

Lemma contains_char_count c s :
  contains (String c EmptyString) s = true ↔ 0 < count c s.
Proof.
  induction s as [|c' s IH]; simpl; [split; [done|lia]|].
  destruct (Ascii.ascii_dec c c') as [->|Hne].
  - rewrite Ascii.eqb_refl. destruct s; simpl; split; (done || lia).
  - assert (Ascii.eqb c' c = false) as -> by (apply Ascii.eqb_neq; congruence).
    simpl. rewrite <-IH. done.
Qed.

(** A string with a separator splits once, at the first separator. *)
Lemma split1_first sep s :
  0 < count sep s →
  ∃ k v, split1 sep s = [k; v] ∧ s = k +:+ String sep v ∧ count sep k = 0.
Proof.
  induction s as [|c s IH]; simpl; [lia|].
  destruct (Ascii.eqb_spec c sep) as [->|Hne]; intros Hn.
  - exists EmptyString, s. done.
  - destruct IH as (k & v & -> & -> & Hk); [lia|].
    exists (String c k), v. split_and!; [done..|].
    simpl. apply Ascii.eqb_neq in Hne. by rewrite Hne.
Qed.

Lemma split1_none sep s : count sep s = 0 → split1 sep s = [s].
Proof.
  induction s as [|c s IH]; simpl; [done|].
  destruct (Ascii.eqb c sep); [lia|]. intros Hn. by rewrite IH.
Qed.

Lemma count_app c s1 s2 : count c (s1 +:+ s2) = count c s1 + count c s2.
Proof. induction s1 as [|c' s1 IH]; simpl; [done|]. rewrite IH. lia. Qed.

(** The first separator of [k:v] is the one after a separator-free [k]. *)
Lemma split1_app sep k v :
  count sep k = 0 → split1 sep (k +:+ String sep v) = [k; v].
Proof.
  induction k as [|c k IH]; simpl.
  - by rewrite Ascii.eqb_refl.
  - destruct (Ascii.eqb c sep); [lia|]. intros Hk. by rewrite IH.
Qed.
End PyStrFacts.

(** ** The name tokenizer *)

Lemma get_flowcell_lane_Some read_name :
  get_flowcell_lane read_name = Some (flowcell_lane read_name).
Proof.
  unfold flowcell_lane, get_flowcell_lane.
  case_bool_decide as Hlen; [|done].
  destruct (PyStr.split ":" read_name) as [|p0 [|p1 [|fc [|lane rest]]]];
    simpl in *; (done || lia).
Qed.

(** C8. Tokenization splits the name on the colon: the fields are free of
    colons and joining them with colons gives the name back.  With four
    fields or more the result is the pair of the fields at positions 2 and
    3, with fewer it is the fixed pair of unknowns; in both cases a result
    is returned, no index is ever out of range. *)
Theorem get_flowcell_lane_spec (read_name : string) :
  let parts := PyStr.split ":" read_name in
  PyStr.join ":" parts = read_name ∧
  Forall (λ f, PyStr.count ":" f = 0) parts ∧
  length parts = S (PyStr.count ":" read_name) ∧
  ((∃ p0 p1 fc lane rest,
       parts = p0 :: p1 :: fc :: lane :: rest ∧
       parts !! 2 = Some fc ∧ parts !! 3 = Some lane ∧
       get_flowcell_lane read_name = Some (fc, lane))
   ∨ (length parts < 4 ∧
      get_flowcell_lane read_name = Some ("unknown_fc", "unknown_lane"))).
Proof.
  intros parts. split_and!.
  - apply PyStrFacts.split_join.
  - apply PyStrFacts.split_no_sep.
  - apply PyStrFacts.split_length.
  - unfold get_flowcell_lane. fold parts.
    destruct parts as [|p0 [|p1 [|fc [|lane rest]]]];
      try (right; split; [simpl; lia|done]).
    left. exists p0, p1, fc, lane, rest. done.
Qed.

Example tokenize_illumina :
  get_flowcell_lane "X:Y:FC1:L2:rest" = Some ("FC1", "L2").
Proof. reflexivity. Qed.

Example tokenize_short : get_flowcell_lane "readA" = Some ("unknown_fc", "unknown_lane").
Proof. reflexivity. Qed.

Example tokenize_empty_fields : get_flowcell_lane ":::" = Some ("", "").
Proof. reflexivity. Qed.

(** ** Insertion-ordered dictionaries *)

Module PyDictFacts.
Import PyDict.
Section facts.
Context {V : Type}.
Implicit Types (d : PyDict.t V) (k : string) (v : V).

Lemma get_set_eq d k v : get (set d k v) k = Some v.
Proof.
  induction d as [|[k' v'] d IH]; simpl.
  - by rewrite String.eqb_refl.
  - destruct (String.eqb k' k) eqn:E; simpl; by rewrite E.
Qed.

Lemma get_set_ne d k k' v : k ≠ k' → get (set d k v) k' = get d k'.
Proof.
  intros Hne. induction d as [|[k0 v0] d IH]; simpl.
  - by apply String.eqb_neq in Hne as ->.
  - destruct (String.eqb_spec k0 k) as [->|Hk]; simpl; [|by rewrite IH].
    by apply String.eqb_neq in Hne as ->.
Qed.

Lemma get_set d k k' v :
  get (set d k v) k' = if decide (k = k') then Some v else get d k'.
Proof.
  case_decide as Hk; [subst; apply get_set_eq|by apply get_set_ne].
Qed.

Lemma get_None d k : get d k = None ↔ k ∉ keys d.
Proof.
  unfold keys. induction d as [|[k' v'] d IH]; simpl.
  - split; [intros _; apply not_elem_of_nil|done].
  - rewrite not_elem_of_cons, <-IH.
    destruct (String.eqb_spec k' k); split; intros; destruct_and?; done.
Qed.

Lemma get_Some_elem d k v : get d k = Some v → (k, v) ∈ d.
Proof.
  induction d as [|[k' v'] d IH]; simpl; [done|].
  destruct (String.eqb_spec k' k) as [->|Hk].
  - intros [= ->]. left.
  - intros Hg. right. auto.
Qed.

Lemma elem_get d k v : NoDup (keys d) → (k, v) ∈ d → get d k = Some v.
Proof.
  unfold keys. induction d as [|[k' v'] d IH]; simpl; intros Hnd Hin.
  - by apply elem_of_nil in Hin.
  - apply NoDup_cons in Hnd as [Hk Hnd].
    apply elem_of_cons in Hin as [[= <- <-]|Hin].
    + by rewrite String.eqb_refl.
    + destruct (String.eqb_spec k' k) as [->|_]; [|by auto].
      destruct Hk. change k with (k, v).1. by apply list_elem_of_fmap_2.
Qed.

Lemma keys_set d k v :
  keys (set d k v) = if decide (k ∈ keys d) then keys d else keys d ++ [k].
Proof.
  unfold keys. induction d as [|[k' v'] d IH]; csimpl.
  - done.
  - destruct (String.eqb_spec k' k) as [->|Hk]; csimpl.
    + rewrite decide_True; [done|left].
    + rewrite IH. destruct (decide (k ∈ d.*1)) as [Hin|Hin].
      * rewrite decide_True; [done|by right].
      * rewrite decide_False; [done|]. rewrite not_elem_of_cons. done.
Qed.

Lemma NoDup_keys_set d k v : NoDup (keys d) → NoDup (keys (set d k v)).
Proof.
  intros Hnd. rewrite keys_set. case_decide as Hin; [done|].
  apply NoDup_app. split_and!; [done| |apply NoDup_singleton].
  intros x Hx ->%list_elem_of_singleton. done.
Qed.

Lemma elem_of_set d k v kv : kv ∈ set d k v → kv ∈ d ∨ kv = (k, v).
Proof.
  induction d as [|[k' v'] d IH]; simpl.
  - intros ->%list_elem_of_singleton. by right.
  - destruct (String.eqb_spec k' k) as [->|Hk].
    + intros [->|Hin]%elem_of_cons; [by right|left; by right].
    + intros [->|Hin]%elem_of_cons; [left; left|].
      destruct (IH Hin); [left; by right|by right].
Qed.

Lemma length_set d k v :
  length (set d k v) = if decide (k ∈ keys d) then length d else S (length d).
Proof.
  pose proof (keys_set d k v) as Hk. apply (f_equal length) in Hk.
  unfold keys in *. rewrite length_fmap in Hk. rewrite Hk.
  case_decide; rewrite ?length_app, !length_fmap; simpl; lia.
Qed.

(** Two dictionaries with the same lookups hold the same items. *)
Lemma same_items d d' :
  NoDup (keys d) → NoDup (keys d') →
  (∀ k, get d k = get d' k) → d ≡ₚ d'.
Proof.
  intros Hd Hd' Hget. apply NoDup_Permutation.
  - by eapply NoDup_fmap_1.
  - by eapply NoDup_fmap_1.
  - intros [k v]. split; intros Hin.
    + apply get_Some_elem. rewrite <-Hget. by apply elem_get.
    + apply get_Some_elem. rewrite Hget. by apply elem_get.
Qed.
End facts.

(** Counting with [counts[k] += 1]. *)
Lemma sum_set (c : PyDict.t nat) k n :
  sum_list (values (set c k n)) + default 0 (get c k) = sum_list (values c) + n.
Proof.
  unfold values. induction c as [|[k' n'] c IH]; csimpl; [lia|].
  destruct (String.eqb k' k); csimpl; lia.
Qed.

Lemma sum_increment (c : PyDict.t nat) k :
  sum_list (values (increment c k)) = S (sum_list (values c)).
Proof. unfold increment. pose proof (sum_set c k (default 0 (get c k) + 1)). lia. Qed.

Lemma get_increment (c : PyDict.t nat) k k' :
  default 0 (get (increment c k) k') =
  default 0 (get c k') + (if decide (k = k') then 1 else 0).
Proof.
  unfold increment. rewrite get_set. case_decide; subst; simpl; lia.
Qed.
End PyDictFacts.

(** ** Both passes return *)

Lemma foldl_fmap_r {A B C} (f : A → C → A) (g : B → C) a (l : list B) :
  foldl (λ a b, f a (g b)) a l = foldl f a (g <$> l).
Proof. revert a. induction l as [|b l IH]; intros a; simpl; [done|apply IH]. Qed.

Lemma pass1_read_upserts preserve_lb rg_to_lb rgs_data final_rgs read :
  pass1_read preserve_lb rg_to_lb rgs_data final_rgs read =
  Some (foldl upsert final_rgs (resolved_for preserve_lb rg_to_lb read <$> rgs_data)).
Proof.
  unfold pass1_read, resolved_for. rewrite get_flowcell_lane_Some.
  destruct (flowcell_lane (query_name read)) as [fc lane]. simpl.
  by rewrite foldl_fmap_r.
Qed.

Lemma pass1_reads_upserts preserve_lb rg_to_lb rgs_data final_rgs reads :
  pass1_reads preserve_lb rg_to_lb rgs_data final_rgs reads =
  Some (foldl upsert final_rgs (upserts preserve_lb rg_to_lb rgs_data reads)).
Proof.
  unfold upserts. revert final_rgs.
  induction reads as [|read reads IH]; intros final_rgs; [done|].
  cbn [pass1_reads]. rewrite pass1_read_upserts. csimpl.
  rewrite IH, foldl_app. done.
Qed.

Lemma final_rgs_of_Some hdr reads rgs_data preserve_lb :
  final_rgs_of hdr reads rgs_data preserve_lb =
  Some (final_rgs hdr reads rgs_data preserve_lb).
Proof.
  unfold final_rgs_of, final_rgs. destruct (need_pass1 _ _); [|done].
  apply pass1_reads_upserts.
Qed.

Lemma pass2_assign_Some need preserve_lb rg_to_lb rgs_data read :
  ∃ resolved,
    pass2_assign need preserve_lb rg_to_lb rgs_data read =
    Some (candidate need preserve_lb rg_to_lb rgs_data read, resolved).
Proof.
  unfold candidate, pass2_assign. destruct need.
  - rewrite get_flowcell_lane_Some.
    destruct (flowcell_lane (query_name read)) as [fc lane]. simpl.
    destruct rgs_data; simpl; eauto.
  - destruct rgs_data; simpl; eauto.
Qed.

Lemma pass2_read_Some need preserve_lb rg_to_lb rgs_data out read :
  pass2_read need preserve_lb rg_to_lb rgs_data out read =
  Some {| written := written out ++ [rewritten need preserve_lb rg_to_lb rgs_data read];
          counts := increment (counts out)
                      (count_bucket (rewritten need preserve_lb rg_to_lb rgs_data read)) |}.
Proof.
  unfold pass2_read, rewritten.
  destruct (pass2_assign_Some need preserve_lb rg_to_lb rgs_data read) as [m ->].
  done.
Qed.

Lemma pass2_reads_Some need preserve_lb rg_to_lb rgs_data out reads :
  pass2_reads need preserve_lb rg_to_lb rgs_data out reads =
  Some {| written := written out ++
                     (rewritten need preserve_lb rg_to_lb rgs_data <$> reads);
          counts := foldl increment (counts out)
                      (count_bucket <$>
                       (rewritten need preserve_lb rg_to_lb rgs_data <$> reads)) |}.
Proof.
  revert out. induction reads as [|read reads IH]; intros out.
  - simpl. rewrite app_nil_r. by destruct out.
  - cbn [pass2_reads]. rewrite pass2_read_Some. simpl. rewrite IH. simpl.
    by rewrite <-app_assoc.
Qed.

(** [process_bam] returns, and this is what it returns. *)
Lemma process_bam_Some hdr reads rgs_data preserve_lb strip_pg :
  let need := need_pass1 rgs_data preserve_lb in
  let rg_to_lb := rg_to_lb_of hdr preserve_lb in
  let out := rewritten need preserve_lb rg_to_lb rgs_data <$> reads in
  process_bam hdr reads rgs_data preserve_lb strip_pg =
  Some {| out_header :=
            rewrite_header hdr (final_rgs hdr reads rgs_data preserve_lb) strip_pg;
          out_reads := out;
          out_counts := foldl increment PyDict.empty (count_bucket <$> out) |}.
Proof.
  intros need rg_to_lb out. unfold process_bam.
  rewrite final_rgs_of_Some. simpl. rewrite pass2_reads_Some. done.
Qed.

(** ** Counting *)

Lemma sum_foldl_increment (c : PyDict.t nat) (buckets : list string) :
  sum_list (PyDict.values (foldl increment c buckets)) =
  sum_list (PyDict.values c) + length buckets.
Proof.
  revert c. induction buckets as [|b buckets IH]; intros c; simpl; [lia|].
  rewrite IH, PyDictFacts.sum_increment. lia.
Qed.

Lemma get_foldl_increment (c : PyDict.t nat) (buckets : list string) k :
  default 0 (PyDict.get (foldl increment c buckets) k) =
  default 0 (PyDict.get c k) + length (filter (k =.) buckets).
Proof.
  revert c. induction buckets as [|b buckets IH]; intros c; simpl; [lia|].
  rewrite IH, PyDictFacts.get_increment, filter_cons.
  destruct (decide (b = k)) as [->|Hne].
  - rewrite decide_True by done. simpl. lia.
  - rewrite decide_False by congruence. lia.
Qed.

Lemma NoDup_foldl_increment (c : PyDict.t nat) (buckets : list string) :
  NoDup (PyDict.keys c) → NoDup (PyDict.keys (foldl increment c buckets)).
Proof.
  revert c. induction buckets as [|b buckets IH]; intros c Hc; simpl; [done|].
  apply IH, PyDictFacts.NoDup_keys_set, Hc.
Qed.

Lemma bucket_counted (buckets : list string) bucket :
  bucket ∈ buckets →
  0 < default 0 (PyDict.get (foldl increment PyDict.empty buckets) bucket).
Proof.
  intros Hin. rewrite get_foldl_increment. simpl.
  assert (bucket ∈ filter (bucket =.) buckets) as Hf by (by apply list_elem_of_filter).
  destruct (filter _ buckets); [by apply elem_of_nil in Hf|simpl; lia].
Qed.

Lemma length_filter_fmap {A B} `{EqDecision B} (f : A → B) (k : B) (l : list A) :
  length (filter (k =.) (f <$> l)) = length (filter (λ x, k = f x) l).
Proof.
  induction l as [|x l IH]; [done|].
  rewrite fmap_cons, !filter_cons. case_decide; simpl; by rewrite IH.
Qed.

(** C5. [process_bam] returns; its counts add up to the number of records
    of the source; every record is written once, in source order, with its
    name, alignment fields and other tags as read and with the read-group
    tag it had or a new, non-empty one; and the count of every bucket is the
    number of written records whose read-group tag is that bucket, or that
    have no read-group tag when the bucket is "None", so that every written
    record is counted in the bucket of the tag it leaves with. *)
Theorem count_conservation (hdr : header) (reads : list AlignedSegment)
    (rgs_data : list attrs) (preserve_lb strip_pg : bool) :
  ∃ res,
    process_bam hdr reads rgs_data preserve_lb strip_pg = Some res ∧
    sum_list (PyDict.values (out_counts res)) = length reads ∧
    NoDup (PyDict.keys (out_counts res)) ∧
    length (out_reads res) = length reads ∧
    Forall2 (λ read read', ∃ rg_id, read' = assign_tag rg_id read)
            reads (out_reads res) ∧
    Forall2 (λ read read',
               query_name read' = query_name read ∧
               alignment read' = alignment read ∧
               (∀ tag, tag ≠ "RG" → tags read' !! tag = tags read !! tag) ∧
               (tags read' !! "RG" = tags read !! "RG" ∨
                ∃ id, id ≠ "" ∧ tags read' !! "RG" = Some id))
            reads (out_reads res) ∧
    (∀ bucket,
       default 0 (PyDict.get (out_counts res) bucket) =
       length (filter (λ read', bucket = match tags read' !! "RG" with
                                          | Some rg => rg
                                          | None => "None"
                                          end) (out_reads res))) ∧
    Forall (λ read', 0 < default 0 (PyDict.get (out_counts res)
                                      match tags read' !! "RG" with
                                      | Some rg => rg
                                      | None => "None"
                                      end)) (out_reads res).
Proof.
  eexists. split; [apply process_bam_Some|]. cbn [out_reads out_counts]. split_and!.
  - rewrite sum_foldl_increment. simpl. by rewrite !length_fmap.
  - apply NoDup_foldl_increment, NoDup_nil_2.
  - by rewrite length_fmap.
  - apply Forall2_fmap_r, Forall_Forall2_diag, Forall_forall.
    intros read _. by eexists.
  - apply Forall2_fmap_r, Forall_Forall2_diag, Forall_forall.
    intros read _. unfold rewritten, compose.
    destruct (candidate (need_pass1 rgs_data preserve_lb) preserve_lb
                (rg_to_lb_of hdr preserve_lb) rgs_data read) as [[|c id]|];
      cbn [assign_tag truthy set_tag query_name alignment tags];
      [by auto| |by auto].
    split_and!; [done..| |].
    + intros tag Htag. by rewrite lookup_insert_ne.
    + right. exists (String c id). by rewrite lookup_insert_eq.
  - intros bucket. by rewrite get_foldl_increment, length_filter_fmap.
  - apply Forall_forall. intros read' Hin.
    apply (bucket_counted _ (count_bucket read')). by apply list_elem_of_fmap_2.
Qed.

(** ** The second pass recomputes the first *)

Lemma pass2_assign_first_pass preserve_lb rg_to_lb template rgs_data read :
  pass2_assign true preserve_lb rg_to_lb (template :: rgs_data) read =
  Some (resolved_for preserve_lb rg_to_lb read template !! "ID",
        resolved_for preserve_lb rg_to_lb read template).
Proof.
  unfold pass2_assign, resolved_for. rewrite get_flowcell_lane_Some.
  destruct (flowcell_lane (query_name read)) as [fc lane]. simpl.
  unfold pass1_resolved, pass2_current_lb, pass1_current_lb.
  destruct preserve_lb; [|done].
  destruct (get_tag read "LB"); [done|].
  destruct (get_tag read "RG"); done.
Qed.

(** C2. When a first pass is needed, the second pass derives the library of
    a record as the first pass does, and the mapping it resolves the first
    template to is the mapping the first pass resolves that template to for
    the same record; the candidate identifier is the [ID] of that mapping. *)
Theorem second_pass_mirrors_first (preserve_lb : bool) (rg_to_lb : attrs)
    (template : attrs) (rgs_data : list attrs) (read : AlignedSegment) :
  ∃ fc lane,
    get_flowcell_lane (query_name read) = Some (fc, lane) ∧
    pass2_current_lb preserve_lb rg_to_lb read =
    pass1_current_lb preserve_lb rg_to_lb read ∧
    let resolved :=
      pass1_resolved template fc lane (pass1_current_lb preserve_lb rg_to_lb read) in
    pass2_assign true preserve_lb rg_to_lb (template :: rgs_data) read =
    Some (resolved !! "ID", resolved).
Proof.
  exists (flowcell_lane (query_name read)).1, (flowcell_lane (query_name read)).2.
  split_and!.
  - rewrite get_flowcell_lane_Some. by destruct (flowcell_lane _).
  - done.
  - apply pass2_assign_first_pass.
Qed.

Lemma candidate_first_pass preserve_lb rg_to_lb template rgs_data read :
  candidate true preserve_lb rg_to_lb (template :: rgs_data) read =
  resolved_for preserve_lb rg_to_lb read template !! "ID".
Proof.
  unfold candidate. by rewrite pass2_assign_first_pass.
Qed.

Lemma candidate_literal preserve_lb rg_to_lb template rgs_data read :
  candidate false preserve_lb rg_to_lb (template :: rgs_data) read = template !! "ID".
Proof. done. Qed.

Lemma candidate_nil need preserve_lb rg_to_lb read :
  candidate need preserve_lb rg_to_lb [] read = None.
Proof.
  unfold candidate, pass2_assign. destruct need; [|done].
  rewrite get_flowcell_lane_Some. by destruct (flowcell_lane _).
Qed.

(** ** Lookups in the final set *)

Lemma get_upsert (d : PyDict.t attrs) (m : attrs) k :
  PyDict.get (upsert d m) k =
  if decide (m !! "ID" = Some k) then Some m else PyDict.get d k.
Proof.
  unfold upsert. destruct (m !! "ID") as [id|] eqn:Hid.
  - rewrite PyDictFacts.get_set. destruct (decide (id = k)) as [->|Hne].
    + by rewrite decide_True.
    + rewrite decide_False; [done|congruence].
  - by rewrite decide_False.
Qed.

(** The last mapping offered under a key is the one the set keeps. *)
Lemma get_foldl_upsert (ups : list attrs) (d : PyDict.t attrs) k :
  PyDict.get (foldl upsert d ups) k =
  match last (filter (λ m : attrs, m !! "ID" = Some k) ups) with
  | Some m => Some m
  | None => PyDict.get d k
  end.
Proof.
  revert d. induction ups as [|m ups IH]; intros d; [done|].
  cbn [foldl]. rewrite IH, filter_cons, get_upsert.
  case_decide as Hm; [|done].
  destruct (filter _ ups) as [|m' l] eqn:Hf; [done|].
  rewrite last_cons_cons. destruct (last (m' :: l)) eqn:E; [done|].
  by apply last_None in E.
Qed.

Lemma well_keyed_empty : well_keyed PyDict.empty.
Proof. split; [apply NoDup_nil_2|apply Forall_nil_2]. Qed.

Lemma well_keyed_upsert d m : well_keyed d → well_keyed (upsert d m).
Proof.
  intros [Hnd Hall]. unfold upsert. destruct (m !! "ID") as [id|] eqn:Hid; [|done].
  split; [by apply PyDictFacts.NoDup_keys_set|].
  apply Forall_forall. intros kv Hin.
  apply PyDictFacts.elem_of_set in Hin as [Hin| ->]; [|done].
  by eapply Forall_forall in Hall.
Qed.

Lemma well_keyed_foldl_upsert ups d : well_keyed d → well_keyed (foldl upsert d ups).
Proof.
  revert d. induction ups as [|m ups IH]; intros d Hd; [done|].
  apply IH, well_keyed_upsert, Hd.
Qed.

Lemma final_rgs_well_keyed hdr reads rgs_data preserve_lb :
  well_keyed (final_rgs hdr reads rgs_data preserve_lb).
Proof.
  unfold final_rgs, literal_rgs.
  destruct (need_pass1 _ _); apply well_keyed_foldl_upsert, well_keyed_empty.
Qed.

Lemma well_keyed_values_ID d m : well_keyed d → m ∈ PyDict.values d → is_Some (m !! "ID").
Proof.
  intros [_ Hall] Hin. unfold PyDict.values in Hin.
  apply list_elem_of_fmap in Hin as ([k m'] & -> & Hin).
  eapply Forall_forall in Hall; [|done]. by eexists.
Qed.

Lemma get_values (d : PyDict.t attrs) k m : PyDict.get d k = Some m → m ∈ PyDict.values d.
Proof.
  intros Hin%PyDictFacts.get_Some_elem. unfold PyDict.values.
  change m with (k, m).2. by apply list_elem_of_fmap_2.
Qed.

(** A key once offered stays in the set. *)
Lemma foldl_upsert_registered (ups : list attrs) (d : PyDict.t attrs) m k :
  m ∈ ups → m !! "ID" = Some k →
  ∃ m', PyDict.get (foldl upsert d ups) k = Some m' ∧ m' ∈ ups ∧ m' !! "ID" = Some k.
Proof.
  intros Hin Hk. rewrite get_foldl_upsert.
  assert (m ∈ filter (λ m : attrs, m !! "ID" = Some k) ups) as Hf
    by (by apply list_elem_of_filter).
  destruct (last _) as [m'|] eqn:Hlast.
  - exists m'. split; [done|].
    apply last_Some_elem_of, list_elem_of_filter in Hlast as [? ?]. done.
  - apply last_None in Hlast. rewrite Hlast in Hf. by apply elem_of_nil in Hf.
Qed.

(** ** Sorting *)

Section sorted_facts.
Context {A K : Type} (key : A → K) (lt : K → K → bool).

Lemma insert_stable_perm x l : insert_stable key lt x l ≡ₚ x :: l.
Proof.
  induction l as [|y l IH]; simpl; [done|].
  destruct (lt (key y) (key x)); [|done].
  rewrite IH. apply Permutation_swap.
Qed.

Lemma py_sorted_perm l : py_sorted key lt l ≡ₚ l.
Proof.
  induction l as [|x l IH]; simpl; [done|].
  by rewrite insert_stable_perm, IH.
Qed.

Lemma py_sorted_elem x l : x ∈ py_sorted key lt l ↔ x ∈ l.
Proof. by rewrite py_sorted_perm. Qed.

(** The sort establishes [not_after] when [lt] is asymmetric and, as in a
    strict total order, what is less than a key is less than every key
    that is not below it. *)
Context (lt_asym : ∀ a b, lt a b = true → lt b a = false).
Context (lt_cotrans : ∀ a b c, lt a c = true → lt a b = true ∨ lt b c = true).

Lemma not_after_trans x y z :
  not_after key lt x y → not_after key lt y z → not_after key lt x z.
Proof.
  unfold not_after. intros Hxy Hyz.
  destruct (lt (key z) (key x)) eqn:E; [|done].
  destruct (lt_cotrans _ (key y) _ E); congruence.
Qed.

Lemma insert_stable_sorted x l :
  StronglySorted (not_after key lt) l →
  StronglySorted (not_after key lt) (insert_stable key lt x l).
Proof.
  induction 1 as [|y l Hl IH Hy]; simpl; [repeat constructor|].
  destruct (lt (key y) (key x)) eqn:E.
  - constructor; [done|].
    rewrite insert_stable_perm. constructor; [|done].
    unfold not_after. by apply lt_asym.
  - constructor; [by constructor|].
    constructor; [done|].
    eapply Forall_impl; [done|]. intros z Hz.
    by eapply not_after_trans.
Qed.

Lemma py_sorted_sorted l : StronglySorted (not_after key lt) (py_sorted key lt l).
Proof.
  induction l as [|x l IH]; simpl; [constructor|].
  by apply insert_stable_sorted.
Qed.
End sorted_facts.

(** ** The order of the sort keys *)

Lemma ltb_negb_leb a b : String.ltb a b = negb (String.leb b a).
Proof.
  unfold String.ltb, String.leb. rewrite (String.compare_antisym a b).
  by destruct (String.compare b a).
Qed.

Lemma string_lexico_strict a b : lexico a b ↔ strict String.le a b.
Proof.
  unfold lexico, string_lexico, strict, String.le. rewrite ltb_negb_leb.
  destruct (String.leb b a) eqn:Hba; simpl.
  - split; [done|]. intros [_ Hn]. by destruct Hn.
  - split; [|done]. intros _. split; [|tauto].
    destruct (String.leb_total a b) as [->|Hab]; [done|congruence].
Qed.

Global Instance string_lexico_po : StrictOrder (@lexico string _).
Proof.
  split.
  - intros a Ha%string_lexico_strict. by apply (irreflexivity (strict String.le) a).
  - intros a b c Hab%string_lexico_strict Hbc%string_lexico_strict.
    apply string_lexico_strict. by etrans.
Qed.

Global Instance string_lexico_trichotomy : TrichotomyT (@lexico string _).
Proof.
  intros a b. unfold lexico, string_lexico, String.ltb.
  destruct (String.compare a b) eqn:Hab.
  - left; right. by apply String.compare_eq_iff.
  - by left; left.
  - right. by rewrite String.compare_antisym, Hab.
Defined.

(** [key_ltb] decides the lexicographic order of the tuples. *)
Lemma key_ltb_lexico a b : key_ltb a b = true ↔ lexico a b.
Proof.
  destruct a as [[a1 a2] a3], b as [[b1 b2] b3].
  unfold key_ltb, lexico at 1, prod_lexico, lexico at 1, prod_lexico. simpl.
  destruct (String.eqb_spec a1 b1) as [->|H1].
  - destruct (String.eqb_spec a2 b2) as [->|H2].
    + split; [by right|].
      intros [[Hlt|[_ Hlt]]|[_ Hlt]]; [| |done];
        by apply (irreflexivity lexico) in Hlt.
    + split; [by left; right|].
      intros [[Hlt|[_ Hlt]]|[? _]]; [|done|congruence].
      by apply (irreflexivity lexico) in Hlt.
  - split; [by left; left|].
    intros [[Hlt|[? _]]|[? _]]; [done|done|congruence].
Qed.

Lemma key_ltb_asym a b : key_ltb a b = true → key_ltb b a = false.
Proof.
  intros Hab%key_ltb_lexico. apply not_true_is_false. intros Hba%key_ltb_lexico.
  by apply (strict_anti_symm (R:=lexico) a b).
Qed.

Lemma key_ltb_cotrans a b c :
  key_ltb a c = true → key_ltb a b = true ∨ key_ltb b c = true.
Proof.
  rewrite !key_ltb_lexico. intros Hac.
  destruct (trichotomy lexico a b) as [Hab|[->|Hba]]; [by left|by right|].
  right. by etrans.
Qed.

Lemma key_ltb_false a b : key_ltb b a = false ↔ key_le a b.
Proof.
  unfold key_le. rewrite <-not_true_iff_false, key_ltb_lexico. split.
  - intros Hba. destruct (trichotomy lexico a b) as [?|[?|?]]; by auto.
  - intros [->|Hab] Hba.
    + by apply (irreflexivity lexico) in Hba.
    + by apply (strict_anti_symm (R:=lexico) a b).
Qed.

Lemma key_le_antisym a b : key_le a b → key_le b a → a = b.
Proof.
  intros [Hab|Hab] [Hba|Hba]; [done..|].
  by destruct (strict_anti_symm (R:=lexico) a b).
Qed.

(** The keys compare component by component, an absent attribute as the
    empty string, which is below every other string. *)
Lemma key_le_components a1 a2 a3 b1 b2 b3 :
  key_le (a1, a2, a3) (b1, b2, b3) ↔
  String.ltb a1 b1 = true ∨
  (a1 = b1 ∧ (String.ltb a2 b2 = true ∨
              (a2 = b2 ∧ (String.ltb a3 b3 = true ∨ a3 = b3)))).
Proof.
  unfold key_le, lexico at 1, prod_lexico, lexico at 1, prod_lexico. simpl.
  unfold lexico, string_lexico. split.
  - intros [[= -> -> ->]|[[?|[-> ?]]|[[= -> ->] ?]]]; by auto 10.
  - intros [?|[-> [?|[-> [?| ->]]]]]; by auto 10.
Qed.

Lemma empty_string_least s : String.ltb s "" = false.
Proof. by destruct s. Qed.

Lemma StronglySorted_mono {A} (R S : relation A) (l : list A) :
  (∀ x y, R x y → S x y) → StronglySorted R l → StronglySorted S l.
Proof.
  intros HRS. induction 1 as [|x l Hl IH Hx]; constructor; [done|].
  eapply Forall_impl; [done|]. intros y. apply HRS.
Qed.

Lemma sorted_rgs_sorted final_rgs :
  StronglySorted (λ x y, key_le (sort_key x) (sort_key y)) (sorted_rgs final_rgs).
Proof.
  eapply StronglySorted_mono; [|apply (py_sorted_sorted sort_key key_ltb)].
  - intros x y. apply key_ltb_false.
  - apply key_ltb_asym.
  - apply key_ltb_cotrans.
Qed.

Lemma sorted_rgs_perm final_rgs : sorted_rgs final_rgs ≡ₚ PyDict.values final_rgs.
Proof. apply py_sorted_perm. Qed.

(** ** The rewritten header *)

Lemma foldl_snoc {A} (acc l : list A) : foldl (λ section x, section ++ [x]) acc l = acc ++ l.
Proof.
  revert acc. induction l as [|x l IH]; intros acc; simpl; [by rewrite app_nil_r|].
  by rewrite IH, <-app_assoc.
Qed.

Lemma rewrite_header_eq (hdr : header) final_rgs strip_pg :
  rewrite_header hdr final_rgs strip_pg =
  <["RG" := Lines (sorted_rgs final_rgs)]> (if strip_pg then delete "PG" hdr else hdr).
Proof.
  unfold rewrite_header. rewrite foldl_snoc. simpl.
  destruct strip_pg; simpl; [|by rewrite insert_insert_eq].
  case_bool_decide as Hpg.
  - rewrite delete_insert_ne by done. by rewrite insert_insert_eq.
  - rewrite insert_insert_eq. f_equal. symmetry. apply delete_id.
    rewrite lookup_insert_ne in Hpg by done.
    by apply eq_None_not_Some.
Qed.

Lemma header_RG_rewrite (hdr : header) final_rgs strip_pg :
  header_RG (rewrite_header hdr final_rgs strip_pg) = sorted_rgs final_rgs.
Proof. unfold header_RG. by rewrite rewrite_header_eq, lookup_insert_eq. Qed.

(** C7. The header handed to the output container is the input header with
    the [RG] section replaced by the sorted final set and, when stripping is
    requested, without its [PG] section; every other section is the input's. *)
Theorem header_frame (hdr : header) (reads : list AlignedSegment)
    (rgs_data : list attrs) (preserve_lb strip_pg : bool) :
  ∃ res final,
    process_bam hdr reads rgs_data preserve_lb strip_pg = Some res ∧
    final_rgs_of hdr reads rgs_data preserve_lb = Some final ∧
    out_header res =
      <["RG" := Lines (sorted_rgs final)]> (if strip_pg then delete "PG" hdr else hdr) ∧
    out_header res !! "RG" = Some (Lines (sorted_rgs final)) ∧
    out_header res !! "PG" = (if strip_pg then None else hdr !! "PG") ∧
    ∀ name, name ≠ "RG" → name ≠ "PG" → out_header res !! name = hdr !! name.
Proof.
  eexists _, _. split; [apply process_bam_Some|].
  split; [apply final_rgs_of_Some|]. simpl.
  rewrite rewrite_header_eq. split_and!; [done|by rewrite lookup_insert_eq|..].
  - rewrite lookup_insert_ne by done.
    destruct strip_pg; [by rewrite lookup_delete_eq|done].
  - intros name Hrg Hpg. rewrite lookup_insert_ne by done.
    destruct strip_pg; [by rewrite lookup_delete_ne|done].
Qed.

(** ** The read-group section is sorted *)

Lemma well_keyed_value d x :
  well_keyed d → x ∈ PyDict.values d →
  ∃ k, x !! "ID" = Some k ∧ PyDict.get d k = Some x.
Proof.
  intros [Hnd Hall] Hin. unfold PyDict.values in Hin.
  apply list_elem_of_fmap in Hin as ([k x'] & -> & Hin).
  exists k. split; [|by apply PyDictFacts.elem_get].
  rewrite Forall_forall in Hall. apply (Hall _ Hin).
Qed.

Lemma sorted_rgs_same (d d' : PyDict.t attrs) :
  well_keyed d → well_keyed d' →
  (∀ k, PyDict.get d k = PyDict.get d' k) →
  sorted_rgs d' = sorted_rgs d.
Proof.
  intros Hd Hd' Hget.
  eapply StronglySorted_unique_strong;
    [|apply sorted_rgs_sorted|apply sorted_rgs_sorted|].
  - intros x y Hx%py_sorted_elem Hy%py_sorted_elem Hxy Hyx.
    pose proof (key_le_antisym _ _ Hxy Hyx) as Hk.
    destruct (well_keyed_value _ _ Hd' Hx) as (kx & Hkx & Hgx).
    destruct (well_keyed_value _ _ Hd Hy) as (ky & Hky & Hgy).
    unfold sort_key in Hk. rewrite Hkx, Hky in Hk. simpl in Hk.
    injection Hk as _ _ ->. rewrite Hget in Hgy. congruence.
  - rewrite !sorted_rgs_perm. unfold PyDict.values. apply fmap_Permutation.
    symmetry. apply PyDictFacts.same_items; [apply Hd|apply Hd'|done].
Qed.


(** ** Library preservation *)

Lemma elem_of_upserts preserve_lb rg_to_lb rgs_data reads m :
  m ∈ upserts preserve_lb rg_to_lb rgs_data reads ↔
  ∃ read template,
    read ∈ reads ∧ template ∈ rgs_data ∧
    m = resolved_for preserve_lb rg_to_lb read template.
Proof.
  unfold upserts. rewrite list_elem_of_bind. split.
  - intros (read & (template & -> & Ht)%list_elem_of_fmap & Hr). eauto.
  - intros (read & template & Hr & Ht & ->). exists read. split; [|done].
    by apply list_elem_of_fmap_2.
Qed.

(** What the template [{ID: "new"}] resolves to. *)
Lemma resolved_for_new preserve_lb rg_to_lb read :
  resolved_for preserve_lb rg_to_lb read {[ "ID" := "new" ]} =
  match pass1_current_lb preserve_lb rg_to_lb read with
  | Some lb => {[ "ID" := "new." +:+ lb; "LB" := lb ]}
  | None => {[ "ID" := "new" ]}
  end.
Proof.
  unfold resolved_for, pass1_resolved, resolve_rg.
  rewrite map_fmap_singleton.
  change (resolve_value _ _ "new") with "new".
  destruct (pass1_current_lb _ _ _) as [lb|]; [|done].
  rewrite lookup_insert_ne by done. rewrite lookup_singleton_eq.
  apply map_eq. intros k.
  destruct (decide (k = "ID")) as [->|Hid]; [by rewrite !lookup_insert_eq|].
  rewrite !(lookup_insert_ne _ "ID") by done.
  destruct (decide (k = "LB")) as [->|Hlb]; [by rewrite !lookup_insert_eq|].
  rewrite !(lookup_insert_ne _ "LB") by done.
  by rewrite !lookup_singleton_ne by done.
Qed.

Lemma rg_to_lb_foldl (entries : list attrs) (rg_to_lb : attrs) id :
  foldl (λ (rg_to_lb : attrs) (rg_entry : attrs),
           match rg_entry !! "ID", rg_entry !! "LB" with
           | Some id, Some lb => <[id := lb]> rg_to_lb
           | _, _ => rg_to_lb
           end) rg_to_lb entries !! id =
  match last (filter (λ e : attrs, e !! "ID" = Some id ∧ is_Some (e !! "LB")) entries) with
  | Some e => e !! "LB"
  | None => rg_to_lb !! id
  end.
Proof.
  revert rg_to_lb. induction entries as [|e entries IH]; intros m; [done|].
  cbn [foldl]. rewrite IH, filter_cons. clear IH.
  destruct (decide (e !! "ID" = Some id ∧ is_Some (e !! "LB"))) as [[Hid [lb Hlb]]|Hno].
  - rewrite Hid, Hlb, lookup_insert_eq.
    destruct (filter _ entries) as [|e' l] eqn:Hf; [done|].
    rewrite last_cons_cons. destruct (last (e' :: l)) eqn:E; [done|].
    by apply last_None in E.
  - destruct (last (filter _ entries)); [done|].
    destruct (e !! "ID") as [id'|] eqn:Hid; [|done].
    destruct (e !! "LB") as [lb|] eqn:Hlb; [|done].
    rewrite lookup_insert_ne; [done|]. intros ->. apply Hno. by split.
Qed.

Lemma filter_none {A} (P : A → Prop) `{∀ x, Decision (P x)} (l : list A) :
  Forall (λ x, ¬ P x) l → filter P l = [].
Proof.
  induction 1 as [|x l Hx _ IH]; [done|]. by rewrite filter_cons, decide_False.
Qed.

(** What the index holds for an identifier whose last entry with an [LB] is
    known. *)
Lemma rg_to_lb_last (hdr : header) (before after : list attrs) (entry : attrs) id lb :
  header_RG hdr = before ++ entry :: after →
  entry !! "ID" = Some id → entry !! "LB" = Some lb →
  Forall (λ e : attrs, ¬ (e !! "ID" = Some id ∧ is_Some (e !! "LB"))) after →
  rg_to_lb_of hdr true !! id = Some lb.
Proof.
  intros Hhdr Hid Hlb Hafter. unfold rg_to_lb_of, build_rg_to_lb.
  rewrite rg_to_lb_foldl, Hhdr, filter_app, filter_cons.
  rewrite decide_True by (split; [done|by eexists]).
  rewrite (filter_none _ after) by done.
  by rewrite last_snoc.
Qed.

(** C3, as the code has it.  A read group of the input header has the [ID]
    "rg1" and the [LB] "libX", and no later read group of the header has the
    [ID] "rg1" together with an [LB]; a record of the source carries [RG=rg1]
    and no [LB] tag, the template is [{ID: "new"}] and libraries are
    preserved.  Then the second pass resolves the record to the mapping
    [{ID: "new.libX", LB: "libX"}], the record is written with the
    read-group tag "new.libX" and counted under it, and that mapping is an
    entry of the rewritten header. *)
Theorem library_preservation_composition (hdr : header)
    (before after : list attrs) (entry : attrs)
    (reads : list AlignedSegment) (i : nat) (read : AlignedSegment)
    (strip_pg : bool) :
  header_RG hdr = before ++ entry :: after →
  entry !! "ID" = Some "rg1" →
  entry !! "LB" = Some "libX" →
  Forall (λ e : attrs, ¬ (e !! "ID" = Some "rg1" ∧ is_Some (e !! "LB"))) after →
  reads !! i = Some read →
  get_tag read "RG" = Some "rg1" →
  get_tag read "LB" = None →
  ∃ res read',
    process_bam hdr reads [ {[ "ID" := "new" ]} ] true strip_pg = Some res ∧
    pass2_assign true true (rg_to_lb_of hdr true) [ {[ "ID" := "new" ]} ] read =
      Some (Some "new.libX", {[ "ID" := "new.libX"; "LB" := "libX" ]}) ∧
    out_reads res !! i = Some read' ∧
    read' = set_tag read "RG" "new.libX" ∧
    get_tag read' "RG" = Some "new.libX" ∧
    get_tag read' "LB" = None ∧
    ({[ "ID" := "new.libX"; "LB" := "libX" ]} ∈ header_RG (out_header res)) ∧
    0 < default 0 (PyDict.get (out_counts res) "new.libX").
Proof.
  intros Hhdr Heid Helb Hafter Hi Hrg Hlb.
  assert (pass1_current_lb true (rg_to_lb_of hdr true) read = Some "libX") as Hcur.
  { unfold pass1_current_lb. rewrite Hlb, Hrg.
    by apply (rg_to_lb_last hdr before after entry). }
  assert (resolved_for true (rg_to_lb_of hdr true) read {[ "ID" := "new" ]} =
          {[ "ID" := "new.libX"; "LB" := "libX" ]}) as Hres.
  { by rewrite resolved_for_new, Hcur. }
  assert (need_pass1 [ {[ "ID" := "new" ]} ] true = true) as Hneed
    by apply orb_true_r.
  assert (rewritten true true (rg_to_lb_of hdr true) [ {[ "ID" := "new" ]} ] read =
          set_tag read "RG" "new.libX") as Hrw.
  { unfold rewritten. rewrite candidate_first_pass, Hres. by rewrite lookup_insert_eq. }
  eexists _, (set_tag read "RG" "new.libX"). split; [apply process_bam_Some|].
  cbn [out_reads out_header out_counts]. rewrite Hneed. split_and!.
  - rewrite pass2_assign_first_pass, Hres. by rewrite lookup_insert_eq.
  - rewrite list_lookup_fmap, Hi. cbn [fmap option_fmap option_map]. by rewrite Hrw.
  - done.
  - unfold get_tag, set_tag. simpl. apply lookup_insert_eq.
  - unfold get_tag, set_tag. simpl. by rewrite lookup_insert_ne.
  - rewrite header_RG_rewrite. apply py_sorted_elem.
    unfold final_rgs. rewrite Hneed.
    destruct (foldl_upsert_registered
                 (upserts true (rg_to_lb_of hdr true) [ {[ "ID" := "new" ]} ] reads)
                 PyDict.empty {[ "ID" := "new.libX"; "LB" := "libX" ]} "new.libX")
      as (m' & Hget & Hin & Hid).
    { apply elem_of_upserts. exists read, {[ "ID" := "new" ]}.
      split_and!; [by eapply list_elem_of_lookup_2|by apply list_elem_of_singleton|done]. }
    { apply lookup_insert_eq. }
    apply get_values in Hget. assert (m' = {[ "ID" := "new.libX"; "LB" := "libX" ]}) as <-; [|done].
    apply elem_of_upserts in Hin as (read' & t & _ & ->%list_elem_of_singleton & ->).
    rewrite resolved_for_new in Hid |- *.
    destruct (pass1_current_lb _ _ read') as [lb|].
    + rewrite lookup_insert_eq in Hid. injection Hid as Hid.
      change (lb = "libX") in Hid. by subst.
    + by rewrite lookup_singleton_eq in Hid.
  - apply bucket_counted.
    replace "new.libX" with
      (count_bucket (rewritten true true (rg_to_lb_of hdr true)
                               [ {[ "ID" := "new" ]} ] read)) at 1.
    + apply list_elem_of_fmap_2, list_elem_of_fmap_2. by eapply list_elem_of_lookup_2.
    + rewrite Hrw. unfold count_bucket, get_tag, set_tag. simpl.
      by rewrite lookup_insert_eq.
Qed.

Lemma library_preservation_composition_witness :
  ∃ res read',
    process_bam
      {[ "RG" := Lines [ {[ "ID" := "rg0"; "LB" := "lib0" ]};
                         {[ "ID" := "rg1"; "LB" := "libX"; "SM" := "s" ]};
                         {[ "ID" := "rg1" ]} ] ]}
      [ mkRead "readA" {[ "RG" := "rg1" ]} "aln" ] [ {[ "ID" := "new" ]} ] true false
      = Some res ∧
    out_reads res !! 0 = Some read' ∧
    get_tag read' "RG" = Some "new.libX" ∧
    ({[ "ID" := "new.libX"; "LB" := "libX" ]} ∈ header_RG (out_header res)).
Proof.
  destruct (library_preservation_composition
              {[ "RG" := Lines [ {[ "ID" := "rg0"; "LB" := "lib0" ]};
                                 {[ "ID" := "rg1"; "LB" := "libX"; "SM" := "s" ]};
                                 {[ "ID" := "rg1" ]} ] ]}
              [ {[ "ID" := "rg0"; "LB" := "lib0" ]} ]
              [ {[ "ID" := "rg1" ]} ]
              {[ "ID" := "rg1"; "LB" := "libX"; "SM" := "s" ]}
              [ mkRead "readA" {[ "RG" := "rg1" ]} "aln" ] 0
              (mkRead "readA" {[ "RG" := "rg1" ]} "aln") false)
    as (res & read' & Hres & _ & Hout & _ & Htag & _ & Hin & _);
    [reflexivity|reflexivity|reflexivity|
     |reflexivity|reflexivity|reflexivity|].
  - constructor; [|constructor]. intros [_ [lb Hlb]]. discriminate Hlb.
  - exists res, read'. auto.
Defined.

(** The index keeps the last read group of an [ID]: when a later read group
    of the header repeats "rg1" with another [LB], the record is assigned
    to "new.libY", although the header contains [{ID: "rg1", LB: "libX"}]. *)
Lemma library_preservation_last_entry_wins :
  ({[ "ID" := "rg1"; "LB" := "libX" ]} : attrs) ∈
    header_RG {[ "RG" := Lines [ {[ "ID" := "rg1"; "LB" := "libX" ]};
                                 {[ "ID" := "rg1"; "LB" := "libY" ]} ] ]} ∧
  process_bam
    {[ "RG" := Lines [ {[ "ID" := "rg1"; "LB" := "libX" ]};
                       {[ "ID" := "rg1"; "LB" := "libY" ]} ] ]}
    [ mkRead "readA" {[ "RG" := "rg1" ]} "aln" ] [ {[ "ID" := "new" ]} ] true false =
  Some {| out_header :=
            {[ "RG" := Lines [ {[ "ID" := "new.libY"; "LB" := "libY" ]} ] ]};
          out_reads := [ mkRead "readA" {[ "RG" := "new.libY" ]} "aln" ];
          out_counts := [("new.libY", 1)] |}.
Proof. split; [left|by vm_compute]. Qed.

(** ** Literal tag overrides *)

Lemma parse_tag_Some tag_str k v :
  parse_tag tag_str = Some (k, v) →
  tag_str = k +:+ ":" +:+ v ∧ PyStr.count ":" k = 0.
Proof.
  unfold parse_tag. destruct (PyStr.contains ":" tag_str) eqn:Hc; [|done].
  apply PyStrFacts.contains_char_count in Hc.
  destruct (PyStrFacts.split1_first ":" tag_str Hc) as (k' & v' & -> & -> & Hk).
  by intros [= <- <-].
Qed.

Lemma parse_tag_colon tag_str :
  PyStr.contains ":" tag_str = true → is_Some (parse_tag tag_str).
Proof.
  intros Hc. unfold parse_tag. rewrite Hc.
  apply PyStrFacts.contains_char_count in Hc.
  by destruct (PyStrFacts.split1_first ":" tag_str Hc) as (k' & v' & -> & _).
Qed.

Lemma parse_tag_no_colon tag_str :
  PyStr.contains ":" tag_str = false → parse_tag tag_str = None.
Proof. intros Hc. unfold parse_tag. by rewrite Hc. Qed.

Lemma parse_tag_app k v :
  PyStr.count ":" k = 0 → parse_tag (k +:+ ":" +:+ v) = Some (k, v).
Proof.
  intros Hk. unfold parse_tag.
  assert (PyStr.contains ":" (k +:+ ":" +:+ v) = true) as ->.
  { apply PyStrFacts.contains_char_count. rewrite PyStrFacts.count_app. simpl. lia. }
  change (":" +:+ v) with (String ":" v). by rewrite PyStrFacts.split1_app.
Qed.

Lemma add_tag_override extra_tags tag_str :
  add_tag extra_tags tag_str = Some (override extra_tags tag_str).
Proof.
  unfold add_tag, override, parse_tag.
  destruct (PyStr.contains ":" tag_str) eqn:Hc; [|done].
  apply PyStrFacts.contains_char_count in Hc.
  by destruct (PyStrFacts.split1_first ":" tag_str Hc) as (k' & v' & -> & _).
Qed.

Lemma extra_tags_of_foldl extra_tags tags :
  extra_tags_of extra_tags tags = Some (foldl override extra_tags tags).
Proof.
  revert extra_tags. induction tags as [|t tags IH]; intros e; [done|].
  cbn [extra_tags_of]. rewrite add_tag_override. apply IH.
Qed.

Lemma merge_tags_Some tags rgs_data :
  merge_tags (Some tags) rgs_data =
  Some ((λ rg : attrs, foldl override ∅ tags ∪ rg) <$> rgs_data).
Proof.
  destruct tags as [|t tags].
  - simpl. f_equal. induction rgs_data as [|rg rgs IH]; [done|].
    rewrite fmap_cons, <-IH. by rewrite (left_id_L ∅ (∪)).
  - unfold merge_tags. by rewrite extra_tags_of_foldl.
Qed.

Lemma foldl_override_filter extra_tags tags :
  foldl override extra_tags (filter (λ t, PyStr.contains ":" t = true) tags) =
  foldl override extra_tags tags.
Proof.
  revert extra_tags. induction tags as [|t tags IH]; intros e; [done|].
  rewrite filter_cons. case_decide as Hc; simpl; [apply IH|].
  rewrite IH. f_equal. unfold override.
  rewrite parse_tag_no_colon; [done|by apply not_true_is_false].
Qed.

Lemma foldl_override_keep extra_tags tags k :
  (∀ v, k +:+ ":" +:+ v ∉ tags) →
  foldl override extra_tags tags !! k = extra_tags !! k.
Proof.
  revert extra_tags. induction tags as [|t tags IH]; intros e Hk; [done|].
  simpl. rewrite IH by (intros v Hin; apply (Hk v); by right).
  unfold override. destruct (parse_tag t) as [[k' v']|] eqn:Hp; [|done].
  apply parse_tag_Some in Hp as [-> _].
  rewrite lookup_insert_ne; [done|]. intros ->. apply (Hk v'). left.
Qed.

Lemma foldl_override_last extra_tags before k v after :
  PyStr.count ":" k = 0 →
  (∀ v', k +:+ ":" +:+ v' ∉ after) →
  foldl override extra_tags (before ++ (k +:+ ":" +:+ v) :: after) !! k = Some v.
Proof.
  intros Hk Hafter. rewrite foldl_app. simpl.
  rewrite foldl_override_keep by done.
  unfold override. rewrite parse_tag_app by done. apply lookup_insert_eq.
Qed.

(** C10. A [--tag] string without a colon changes nothing and raises
    nothing.  A string with a colon is [k:v] for a colon-free [k], whatever
    colons [v] holds, and puts [v] under [k] in every template, unless a
    later string overrides [k] again; the keys no string names keep the
    value of the template. *)
Theorem tag_overrides (tags : list string) (rgs_data : list attrs) :
  ∃ merged,
    merge_tags (Some tags) rgs_data = Some merged ∧
    merge_tags (Some (filter (λ t, PyStr.contains ":" t = true) tags)) rgs_data =
      Some merged ∧
    merge_tags None rgs_data = Some rgs_data ∧
    length merged = length rgs_data ∧
    (∀ tag_str, tag_str ∈ tags → PyStr.contains ":" tag_str = true →
       ∃ k v, tag_str = k +:+ ":" +:+ v ∧ PyStr.count ":" k = 0 ∧
              PyStr.split1 ":" tag_str = [k; v]) ∧
    ∀ i rg rg', rgs_data !! i = Some rg → merged !! i = Some rg' →
      (∀ k, (∀ v, k +:+ ":" +:+ v ∉ tags) → rg' !! k = rg !! k) ∧
      (∀ before k v after,
         tags = before ++ (k +:+ ":" +:+ v) :: after →
         PyStr.count ":" k = 0 →
         (∀ v', k +:+ ":" +:+ v' ∉ after) →
         rg' !! k = Some v).
Proof.
  eexists. split; [apply merge_tags_Some|]. split_and!.
  - by rewrite merge_tags_Some, foldl_override_filter.
  - done.
  - by rewrite length_fmap.
  - intros t _ Hc. apply PyStrFacts.contains_char_count in Hc.
    destruct (PyStrFacts.split1_first ":" t Hc) as (k & v & ? & ? & ?).
    by exists k, v.
  - intros i rg rg' Hrg. rewrite list_lookup_fmap, Hrg. intros [= <-]. split.
    + intros k Hk. rewrite lookup_union, foldl_override_keep by done.
      rewrite lookup_empty. by destruct (rg !! k).
    + intros before k v after -> Hk Hafter.
      rewrite lookup_union, foldl_override_last by done.
      by destruct (rg !! k).
Qed.

Lemma tag_overrides_witness :
  ∃ merged,
    merge_tags (Some ["PL:ILLUMINA"; "junk"; "DS:a:b"; "PL:x"])
               [ {[ "ID" := "a"; "PL" := "old" ]} ] = Some merged ∧
    ∀ rg', merged !! 0 = Some rg' →
      rg' !! "DS" = Some "a:b" ∧ rg' !! "PL" = Some "x" ∧ rg' !! "ID" = Some "a".
Proof.
  destruct (tag_overrides ["PL:ILLUMINA"; "junk"; "DS:a:b"; "PL:x"]
                          [ {[ "ID" := "a"; "PL" := "old" ]} ])
    as (merged & Hm & _ & _ & _ & _ & Hall).
  exists merged. split; [exact Hm|]. intros rg' Hrg'.
  destruct (Hall 0 _ rg' eq_refl Hrg') as [Hkeep Hover]. split_and!.
  - apply (Hover ["PL:ILLUMINA"; "junk"] "DS" "a:b" ["PL:x"]); [reflexivity..|].
    intros v' Hin. apply list_elem_of_singleton in Hin. discriminate.
  - apply (Hover ["PL:ILLUMINA"; "junk"; "DS:a:b"] "PL" "x" []); [reflexivity..|].
    intros v'. apply not_elem_of_nil.
  - rewrite Hkeep; [reflexivity|].
    intros v Hin. repeat (apply elem_of_cons in Hin as [Hin|Hin]; [discriminate|]).
    by apply elem_of_nil in Hin.
Defined.

(** ** Order of the records in the first pass *)

Lemma last_perm_const {A} (l l' : list A) :
  l ≡ₚ l' → (∀ x y, x ∈ l → y ∈ l → x = y) → last l = last l'.
Proof.
  intros Hperm Hconst.
  destruct (last l) as [a|] eqn:Ha, (last l') as [b|] eqn:Hb; [| | |done].
  - apply last_Some_elem_of in Ha, Hb. rewrite <-Hperm in Hb.
    f_equal. by apply Hconst.
  - apply last_None in Hb. subst l'. apply Permutation_nil_r in Hperm. by subst l.
  - apply last_None in Ha. subst l. apply Permutation_nil_l in Hperm. by subst l'.
Qed.

Lemma get_foldl_upsert_perm (ups ups' : list attrs) (d : PyDict.t attrs) k :
  ups ≡ₚ ups' →
  (∀ m1 m2, m1 ∈ ups → m2 ∈ ups →
            is_Some (m1 !! "ID") → m1 !! "ID" = m2 !! "ID" → m1 = m2) →
  PyDict.get (foldl upsert d ups) k = PyDict.get (foldl upsert d ups') k.
Proof.
  intros Hperm Hfree. rewrite !get_foldl_upsert.
  rewrite (last_perm_const (filter (λ m : attrs, m !! "ID" = Some k) ups)
                           (filter (λ m : attrs, m !! "ID" = Some k) ups')); [done| |].
  - by rewrite Hperm.
  - intros m1 m2 [H1 Hin1]%list_elem_of_filter [H2 Hin2]%list_elem_of_filter.
    apply Hfree; [done..|by eexists|congruence].
Qed.

Lemma same_key_same_value_upserts preserve_lb rg_to_lb rgs_data reads :
  same_key_same_value preserve_lb rg_to_lb rgs_data reads →
  ∀ m1 m2, m1 ∈ upserts preserve_lb rg_to_lb rgs_data reads →
           m2 ∈ upserts preserve_lb rg_to_lb rgs_data reads →
           is_Some (m1 !! "ID") → m1 !! "ID" = m2 !! "ID" → m1 = m2.
Proof.
  intros Hsame m1 m2 (r1 & t1 & Hr1 & Ht1 & ->)%elem_of_upserts
                     (r2 & t2 & Hr2 & Ht2 & ->)%elem_of_upserts.
  unfold resolved_for.
  apply (Hsame r1 r2 t1 t2); try done.
  - rewrite get_flowcell_lane_Some. by destruct (flowcell_lane _).
  - rewrite get_flowcell_lane_Some. by destruct (flowcell_lane _).
Qed.

(** C1, as the code has it.  Two records with the same tokens and the same
    library make the first pass do the same to the set.  Whenever all the
    mappings a run offers under one key are the same mapping, the final set
    has the same content, and the header the same read-group section, for
    every reordering of the records. *)
Theorem first_pass_order_independent (hdr : header) (rgs_data : list attrs)
    (preserve_lb : bool) (reads reads' : list AlignedSegment) :
  reads ≡ₚ reads' →
  same_key_same_value preserve_lb (rg_to_lb_of hdr preserve_lb) rgs_data reads →
  (∀ r1 r2 final,
     get_flowcell_lane (query_name r1) = get_flowcell_lane (query_name r2) →
     pass1_current_lb preserve_lb (rg_to_lb_of hdr preserve_lb) r1 =
     pass1_current_lb preserve_lb (rg_to_lb_of hdr preserve_lb) r2 →
     pass1_read preserve_lb (rg_to_lb_of hdr preserve_lb) rgs_data final r1 =
     pass1_read preserve_lb (rg_to_lb_of hdr preserve_lb) rgs_data final r2) ∧
  ∃ final final',
    final_rgs_of hdr reads rgs_data preserve_lb = Some final ∧
    final_rgs_of hdr reads' rgs_data preserve_lb = Some final' ∧
    (∀ k, PyDict.get final k = PyDict.get final' k) ∧
    sorted_rgs final = sorted_rgs final'.
Proof.
  intros Hperm Hsame. split.
  { intros r1 r2 final Hfl Hlb. unfold pass1_read. by rewrite Hfl, Hlb. }
  eexists _, _. split; [apply final_rgs_of_Some|].
  split; [apply final_rgs_of_Some|].
  assert (∀ k, PyDict.get (final_rgs hdr reads rgs_data preserve_lb) k =
               PyDict.get (final_rgs hdr reads' rgs_data preserve_lb) k) as Hget.
  { intros k. unfold final_rgs. destruct (need_pass1 _ _); [|done].
    apply get_foldl_upsert_perm.
    - unfold upserts. by rewrite Hperm.
    - by apply same_key_same_value_upserts. }
  split; [done|].
  symmetry. apply sorted_rgs_same; [apply final_rgs_well_keyed..|done].
Qed.

Lemma first_pass_order_independent_witness :
  ∃ final final',
    final_rgs_of ∅ [mkRead "X:Y:FC1:L2:rest" ∅ ""; mkRead "bad_name" ∅ ""]
      [ {[ "ID" := "[FLOWCELL]_[LANE]"; "SM" := "sample1" ]} ] false = Some final ∧
    final_rgs_of ∅ [mkRead "bad_name" ∅ ""; mkRead "X:Y:FC1:L2:rest" ∅ ""]
      [ {[ "ID" := "[FLOWCELL]_[LANE]"; "SM" := "sample1" ]} ] false = Some final' ∧
    (∀ k, PyDict.get final k = PyDict.get final' k) ∧
    sorted_rgs final = sorted_rgs final'.
Proof.
  apply (first_pass_order_independent ∅
           [ {[ "ID" := "[FLOWCELL]_[LANE]"; "SM" := "sample1" ]} ] false
           [mkRead "X:Y:FC1:L2:rest" ∅ ""; mkRead "bad_name" ∅ ""]
           [mkRead "bad_name" ∅ ""; mkRead "X:Y:FC1:L2:rest" ∅ ""]).
  - apply Permutation_swap.
  - intros r1 r2 t1 t2 fc1 lane1 fc2 lane2 Hr1 Hr2 Ht1 Ht2 H1 H2.
    apply list_elem_of_singleton in Ht1, Ht2. subst t1 t2.
    apply elem_of_cons in Hr1 as [->|Hr1]; [|apply list_elem_of_singleton in Hr1 as ->];
      (apply elem_of_cons in Hr2 as [->|Hr2]; [|apply list_elem_of_singleton in Hr2 as ->]);
      vm_compute in H1, H2; injection H1 as <- <-; injection H2 as <- <-;
      intros m1 m2 _ Hid; try reflexivity; vm_compute in Hid; discriminate Hid.
Defined.

(** The first pass does depend on the order of the records: with the
    template [{ID: "a", SM: "[FLOWCELL]"}] two records of different
    flowcells offer different mappings under the one key "a", and the set
    keeps the mapping of whichever record comes last. *)
Lemma first_pass_order_dependent :
  [mkRead "x:y:FC1:1" ∅ ""; mkRead "x:y:FC2:1" ∅ ""] ≡ₚ
  [mkRead "x:y:FC2:1" ∅ ""; mkRead "x:y:FC1:1" ∅ ""] ∧
  pass1_read false ∅ [ {[ "ID" := "a"; "SM" := "[FLOWCELL]" ]} ] PyDict.empty
    (mkRead "x:y:FC1:1" ∅ "") = Some [("a", {[ "ID" := "a"; "SM" := "FC1" ]})] ∧
  pass1_read false ∅ [ {[ "ID" := "a"; "SM" := "[FLOWCELL]" ]} ] PyDict.empty
    (mkRead "x:y:FC2:1" ∅ "") = Some [("a", {[ "ID" := "a"; "SM" := "FC2" ]})] ∧
  final_rgs_of ∅ [mkRead "x:y:FC1:1" ∅ ""; mkRead "x:y:FC2:1" ∅ ""]
    [ {[ "ID" := "a"; "SM" := "[FLOWCELL]" ]} ] false
    = Some [("a", {[ "ID" := "a"; "SM" := "FC2" ]})] ∧
  final_rgs_of ∅ [mkRead "x:y:FC2:1" ∅ ""; mkRead "x:y:FC1:1" ∅ ""]
    [ {[ "ID" := "a"; "SM" := "[FLOWCELL]" ]} ] false
    = Some [("a", {[ "ID" := "a"; "SM" := "FC1" ]})] ∧
  ({[ "ID" := "a"; "SM" := "FC1" ]} : attrs) ≠ {[ "ID" := "a"; "SM" := "FC2" ]}.
Proof.
  split_and!; [apply Permutation_swap|by vm_compute..|].
  intros Heq. apply (f_equal (.!! "SM")) in Heq. vm_compute in Heq. discriminate Heq.
Qed.

(** ** Assignments and header entries *)

Lemma final_rgs_values_ID hdr reads rgs_data preserve_lb entry :
  entry ∈ PyDict.values (final_rgs hdr reads rgs_data preserve_lb) →
  is_Some (entry !! "ID").
Proof. apply well_keyed_values_ID, final_rgs_well_keyed. Qed.

(** The identifier a record is a candidate for is the [ID] of an entry of
    the rewritten header. *)
Lemma candidate_registered hdr reads rgs_data preserve_lb strip_pg read id :
  read ∈ reads →
  candidate (need_pass1 rgs_data preserve_lb) preserve_lb
            (rg_to_lb_of hdr preserve_lb) rgs_data read = Some id →
  ∃ entry,
    entry ∈ header_RG (rewrite_header hdr (final_rgs hdr reads rgs_data preserve_lb)
                                      strip_pg) ∧
    entry !! "ID" = Some id.
Proof.
  intros Hread Hcand. rewrite header_RG_rewrite. unfold final_rgs.
  destruct rgs_data as [|template rgs_data]; [by rewrite candidate_nil in Hcand|].
  destruct (need_pass1 _ _).
  - rewrite candidate_first_pass in Hcand.
    destruct (foldl_upsert_registered
                (upserts preserve_lb (rg_to_lb_of hdr preserve_lb)
                         (template :: rgs_data) reads)
                PyDict.empty
                (resolved_for preserve_lb (rg_to_lb_of hdr preserve_lb) read template)
                id) as (m' & Hget & _ & Hid); [|exact Hcand|].
    { apply elem_of_upserts. exists read, template. split_and!; [done|left|done]. }
    exists m'. split; [|done]. apply py_sorted_elem. by eapply get_values.
  - rewrite candidate_literal in Hcand.
    destruct (foldl_upsert_registered (template :: rgs_data) PyDict.empty template id)
      as (m' & Hget & _ & Hid); [left|done|].
    exists m'. split; [|done]. apply py_sorted_elem. by eapply get_values.
Qed.

Lemma assign_tag_cases rg_id read :
  (truthy rg_id = false ∧ assign_tag rg_id read = read) ∨
  (∃ id, rg_id = Some id ∧ id ≠ "" ∧ assign_tag rg_id read = set_tag read "RG" id).
Proof.
  destruct rg_id as [[|c id]|]; [by left| |by left].
  right. by exists (String c id).
Qed.

Lemma upsert_without_id (final : PyDict.t attrs) (resolved : attrs) :
  resolved !! "ID" = None → upsert final resolved = final.
Proof. intros Hid. unfold upsert. by rewrite Hid. Qed.

Lemma pass1_resolved_no_library template fc lane :
  pass1_resolved template fc lane None !! "ID" =
  resolve_value fc lane <$> template !! "ID".
Proof. unfold pass1_resolved, resolve_rg. apply lookup_fmap. Qed.

Lemma pass1_resolved_library_only template fc lane lb :
  template !! "ID" = None →
  pass1_resolved template fc lane (Some lb) !! "ID" = Some lb ∧
  pass1_resolved template fc lane (Some lb) !! "LB" = Some lb.
Proof.
  intros Hid. unfold pass1_resolved, resolve_rg.
  rewrite lookup_insert_ne by done. rewrite lookup_fmap, Hid. simpl.
  rewrite lookup_insert_eq, lookup_insert_ne by done.
  by rewrite lookup_insert_eq.
Qed.

(** C6, as the code has it.  Every entry of the header's read-group section
    has an [ID], so a template without [ID] is itself no entry.  Resolved for
    a record without library, or taken literally when no first pass runs, it
    has no [ID] and is not registered.  Resolved for a record with a library
    it is given the library as [ID] and as [LB] and is put into the set
    under it, so that the header has a read group with the library as [ID];
    when it is the first template, the record is written with the library
    as its read-group tag, unless the library is empty.  When it is the first
    template, a record for which no library is derived resolves to no
    identifier in the second pass; the record is written as it was read, and
    if it carried no read-group tag the bucket "None" counts it. *)
Theorem template_without_id (hdr : header) (reads : list AlignedSegment)
    (rgs_data : list attrs) (template : attrs) (preserve_lb strip_pg : bool) :
  template ∈ rgs_data →
  template !! "ID" = None →
  ∃ res,
    process_bam hdr reads rgs_data preserve_lb strip_pg = Some res ∧
    Forall (λ entry, is_Some (entry !! "ID")) (header_RG (out_header res)) ∧
    (template ∉ header_RG (out_header res)) ∧
    (∀ final fc lane,
       upsert final template = final ∧
       upsert final (pass1_resolved template fc lane None) = final) ∧
    (∀ fc lane lb,
       pass1_resolved template fc lane (Some lb) !! "ID" = Some lb ∧
       pass1_resolved template fc lane (Some lb) !! "LB" = Some lb) ∧
    (∀ read lb,
       read ∈ reads →
       pass1_current_lb preserve_lb (rg_to_lb_of hdr preserve_lb) read = Some lb →
       ∃ entry, entry ∈ header_RG (out_header res) ∧ entry !! "ID" = Some lb) ∧
    (∀ i read lb,
       rgs_data !! 0 = Some template →
       reads !! i = Some read →
       pass1_current_lb preserve_lb (rg_to_lb_of hdr preserve_lb) read = Some lb →
       ∃ read',
         out_reads res !! i = Some read' ∧
         (lb ≠ "" → tags read' !! "RG" = Some lb) ∧
         (lb = "" → read' = read)) ∧
    ∀ i read,
      rgs_data !! 0 = Some template →
      reads !! i = Some read →
      pass1_current_lb preserve_lb (rg_to_lb_of hdr preserve_lb) read = None →
      (∃ resolved,
         pass2_assign (need_pass1 rgs_data preserve_lb) preserve_lb
           (rg_to_lb_of hdr preserve_lb) rgs_data read = Some (None, resolved)) ∧
      out_reads res !! i = Some read ∧
      (get_tag read "RG" = None →
       count_bucket read = "None" ∧
       0 < default 0 (PyDict.get (out_counts res) "None")).
Proof.
  intros Hin Hid. eexists. split; [apply process_bam_Some|].
  cbn [out_header out_reads out_counts].
  assert (Forall (λ entry : attrs, is_Some (entry !! "ID"))
            (header_RG (rewrite_header hdr
               (final_rgs hdr reads rgs_data preserve_lb) strip_pg))) as Hall.
  { rewrite header_RG_rewrite. apply Forall_forall. intros entry He.
    apply py_sorted_elem in He. by eapply final_rgs_values_ID. }
  assert (∀ read lb,
            pass1_current_lb preserve_lb (rg_to_lb_of hdr preserve_lb) read = Some lb →
            need_pass1 rgs_data preserve_lb = true ∧
            resolved_for preserve_lb (rg_to_lb_of hdr preserve_lb) read template
              !! "ID" = Some lb) as Hlib.
  { intros read lb Hlb. split.
    - destruct preserve_lb; [apply orb_true_r|done].
    - unfold resolved_for. rewrite Hlb. by apply pass1_resolved_library_only. }
  split_and!; [done| | | | | |].
  { intros Ht. rewrite Forall_forall in Hall. apply Hall in Ht.
    rewrite Hid in Ht. by destruct Ht. }
  { intros final fc lane. split; apply upsert_without_id; [done|].
    by rewrite pass1_resolved_no_library, Hid. }
  { intros fc lane lb. by apply pass1_resolved_library_only. }
  { intros read lb Hread Hlb. destruct (Hlib read lb Hlb) as [Hneed Hrid].
    rewrite header_RG_rewrite. unfold final_rgs. rewrite Hneed.
    destruct (foldl_upsert_registered
                (upserts preserve_lb (rg_to_lb_of hdr preserve_lb) rgs_data reads)
                PyDict.empty
                (resolved_for preserve_lb (rg_to_lb_of hdr preserve_lb) read template)
                lb) as (m' & Hget & _ & Hid'); [|done|].
    { apply elem_of_upserts. by exists read, template. }
    exists m'. split; [|done]. apply py_sorted_elem. by eapply get_values. }
  { intros i read lb H0 Hi Hlb. destruct (Hlib read lb Hlb) as [Hneed Hrid].
    destruct rgs_data as [|t rgs_data]; [done|]. injection H0 as ->.
    eexists. rewrite list_lookup_fmap, Hi. cbn [fmap option_fmap option_map].
    split; [done|]. unfold rewritten. rewrite Hneed, candidate_first_pass, Hrid.
    destruct lb as [|c lb]; [by split|]. split; [|done].
    intros _. simpl. apply lookup_insert_eq. }
  intros i read H0 Hi Hlb.
  destruct rgs_data as [|t rgs_data]; [done|]. injection H0 as ->.
  assert (candidate (need_pass1 (template :: rgs_data) preserve_lb) preserve_lb
            (rg_to_lb_of hdr preserve_lb) (template :: rgs_data) read = None) as Hcand.
  { destruct (need_pass1 _ _).
    - rewrite candidate_first_pass. unfold resolved_for.
      by rewrite Hlb, pass1_resolved_no_library, Hid.
    - by rewrite candidate_literal. }
  assert (rewritten (need_pass1 (template :: rgs_data) preserve_lb) preserve_lb
            (rg_to_lb_of hdr preserve_lb) (template :: rgs_data) read = read) as Hrw.
  { unfold rewritten. by rewrite Hcand. }
  split_and!.
  - destruct (pass2_assign_Some (need_pass1 (template :: rgs_data) preserve_lb)
                preserve_lb (rg_to_lb_of hdr preserve_lb) (template :: rgs_data) read)
      as [resolved Hres].
    exists resolved. by rewrite Hres, Hcand.
  - rewrite list_lookup_fmap, Hi. cbn [fmap option_fmap option_map]. by rewrite Hrw.
  - intros Hrg.
    assert (count_bucket read = "None") as Hb by (unfold count_bucket; by rewrite Hrg).
    split; [done|]. apply bucket_counted.
    rewrite <-Hb, <-Hrw at 1. apply list_elem_of_fmap_2, list_elem_of_fmap_2.
    by eapply list_elem_of_lookup_2.
Qed.

Lemma template_without_id_witness :
  ∃ res,
    process_bam ∅ [mkRead "readA" ∅ "aln"]
      [ {[ "SM" := "[FLOWCELL]" ]} ] false false = Some res ∧
    ({[ "SM" := "[FLOWCELL]" ]} ∉ header_RG (out_header res)) ∧
    out_reads res !! 0 = Some (mkRead "readA" ∅ "aln") ∧
    0 < default 0 (PyDict.get (out_counts res) "None").
Proof.
  destruct (template_without_id ∅ [mkRead "readA" ∅ "aln"]
              [ {[ "SM" := "[FLOWCELL]" ]} ] {[ "SM" := "[FLOWCELL]" ]} false false)
    as (res & Hres & _ & Hnot & _ & _ & _ & _ & Hrec); [left|reflexivity|].
  destruct (Hrec 0 (mkRead "readA" ∅ "aln") eq_refl eq_refl eq_refl)
    as (_ & Hout & Hnone).
  exists res. split_and!; [exact Hres|exact Hnot|exact Hout|apply Hnone; reflexivity].
Defined.

(** With library preservation a template without [ID] does reach the
    header: for a record with the library "libA" the template [{SM: "s"}]
    resolves to [{ID: "libA", LB: "libA", SM: "s"}], which is the read-group
    section of the rewritten header, and the record is assigned to it. *)
Lemma template_without_id_registered :
  ({[ "SM" := "s" ]} : attrs) !! "ID" = None ∧
  process_bam ∅ [mkRead "readA" {[ "LB" := "libA" ]} "aln"]
    [ {[ "SM" := "s" ]} ] true false =
  Some {| out_header :=
            {[ "RG" := Lines [ {[ "ID" := "libA"; "LB" := "libA"; "SM" := "s" ]} ] ]};
          out_reads :=
            [mkRead "readA" {[ "LB" := "libA"; "RG" := "libA" ]} "aln"];
          out_counts := [("libA", 1)] |}.
Proof. split; by vm_compute. Qed.

(** Of two templates without [ID] the later one takes the entry: both
    resolve to the [ID] "libA", and the set keeps the last mapping offered
    under a key. *)
Example template_without_id_last_wins :
  process_bam ∅ [mkRead "readA" {[ "LB" := "libA" ]} "aln"]
    [ {[ "SM" := "s" ]}; {[ "SM" := "t" ]} ] true false =
  Some {| out_header :=
            {[ "RG" := Lines [ {[ "ID" := "libA"; "LB" := "libA"; "SM" := "t" ]} ] ]};
          out_reads :=
            [mkRead "readA" {[ "LB" := "libA"; "RG" := "libA" ]} "aln"];
          out_counts := [("libA", 1)] |}.
Proof. by vm_compute. Qed.

(** C9. The script never writes an empty read-group tag: every record is
    written either as it was read or with a tag that is not empty.  A record
    whose candidate identifier is the empty string is written as it was read,
    although its mapping, with the empty [ID], is registered and the
    rewritten header has an entry with the empty [ID]. *)
Theorem empty_id_not_assigned (hdr : header) (reads : list AlignedSegment)
    (rgs_data : list attrs) (preserve_lb strip_pg : bool) :
  ∃ res,
    process_bam hdr reads rgs_data preserve_lb strip_pg = Some res ∧
    Forall2 (λ read read',
               read' = read ∨ ∃ id, id ≠ "" ∧ read' = set_tag read "RG" id)
            reads (out_reads res) ∧
    ∀ i read resolved,
      reads !! i = Some read →
      pass2_assign (need_pass1 rgs_data preserve_lb) preserve_lb
        (rg_to_lb_of hdr preserve_lb) rgs_data read = Some (Some "", resolved) →
      out_reads res !! i = Some read ∧
      ∃ entry, entry ∈ header_RG (out_header res) ∧ entry !! "ID" = Some "".
Proof.
  eexists. split; [apply process_bam_Some|].
  cbn [out_header out_reads]. split.
  - apply Forall2_fmap_r, Forall_Forall2_diag, Forall_forall. intros read _.
    unfold rewritten, compose.
    destruct (assign_tag_cases
                (candidate (need_pass1 rgs_data preserve_lb) preserve_lb
                           (rg_to_lb_of hdr preserve_lb) rgs_data read) read)
      as [[_ ->]|(id & _ & Hne & ->)]; [by left|right; by exists id].
  - intros i read resolved Hi Hassign.
    assert (candidate (need_pass1 rgs_data preserve_lb) preserve_lb
              (rg_to_lb_of hdr preserve_lb) rgs_data read = Some "") as Hcand.
    { unfold candidate. by rewrite Hassign. }
    split.
    + rewrite list_lookup_fmap, Hi. cbn [fmap option_fmap option_map].
      unfold rewritten. by rewrite Hcand.
    + eapply candidate_registered; [by eapply list_elem_of_lookup_2|done].
Qed.

Lemma empty_id_not_assigned_witness :
  ∃ res,
    process_bam ∅ [mkRead "readA" ∅ "aln"]
      [ {[ "ID" := ""; "SM" := "s" ]} ] false false = Some res ∧
    out_reads res !! 0 = Some (mkRead "readA" ∅ "aln") ∧
    ∃ entry, entry ∈ header_RG (out_header res) ∧ entry !! "ID" = Some "".
Proof.
  destruct (empty_id_not_assigned ∅ [mkRead "readA" ∅ "aln"]
              [ {[ "ID" := ""; "SM" := "s" ]} ] false false)
    as (res & Hres & _ & Hrec).
  exists res. split; [exact Hres|].
  apply (Hrec 0 (mkRead "readA" ∅ "aln") {[ "ID" := ""; "SM" := "s" ]});
    reflexivity.
Defined.

Lemma header_frame_witness :
  ∃ res,
    process_bam
      {[ "HD" := Single {[ "VN" := "1.6" ]};
         "SQ" := Lines [ {[ "SN" := "chr1"; "LN" := "1000" ]} ];
         "RG" := Lines [ {[ "ID" := "old" ]} ];
         "PG" := Lines [ {[ "ID" := "bwa" ]} ];
         "CO" := Comments ["a comment"] ]}
      [mkRead "readA" ∅ "aln"] [ {[ "ID" := "new" ]} ] false true = Some res ∧
    out_header res !! "PG" = None ∧
    out_header res !! "SQ" = Some (Lines [ {[ "SN" := "chr1"; "LN" := "1000" ]} ]) ∧
    out_header res !! "CO" = Some (Comments ["a comment"]).
Proof.
  destruct (header_frame
      {[ "HD" := Single {[ "VN" := "1.6" ]};
         "SQ" := Lines [ {[ "SN" := "chr1"; "LN" := "1000" ]} ];
         "RG" := Lines [ {[ "ID" := "old" ]} ];
         "PG" := Lines [ {[ "ID" := "bwa" ]} ];
         "CO" := Comments ["a comment"] ]}
      [mkRead "readA" ∅ "aln"] [ {[ "ID" := "new" ]} ] false true)
    as (res & final & Hres & _ & _ & _ & Hpg & Hother).
  exists res. split_and!; [exact Hres|exact Hpg|..].
  - rewrite Hother; [reflexivity|discriminate..].
  - rewrite Hother; [reflexivity|discriminate..].
Defined.


(** The scenario of three records, two of one lane and one with a name that
    does not tokenize: two groups are registered, the header lists them in
    order, and the counts are 2 and 1. *)
Example end_to_end :
  process_bam ∅
    [mkRead "X:Y:FC1:L2:rest" ∅ "r1"; mkRead "X:Y:FC1:L2:rest2" ∅ "r2";
     mkRead "bad_name" ∅ "r3"]
    [ {[ "ID" := "[FLOWCELL]_[LANE]"; "SM" := "sample1" ]} ] false false =
  Some {| out_header :=
            {[ "RG" := Lines [ {[ "ID" := "FC1_L2"; "SM" := "sample1" ]};
                               {[ "ID" := "unknown_fc_unknown_lane";
                                  "SM" := "sample1" ]} ] ]};
          out_reads :=
            [mkRead "X:Y:FC1:L2:rest" {[ "RG" := "FC1_L2" ]} "r1";
             mkRead "X:Y:FC1:L2:rest2" {[ "RG" := "FC1_L2" ]} "r2";
             mkRead "bad_name" {[ "RG" := "unknown_fc_unknown_lane" ]} "r3"];
          out_counts := [("FC1_L2", 2); ("unknown_fc_unknown_lane", 1)] |}.
Proof. by vm_compute. Qed.

Example resolve_placeholders :
  resolve_value "HISEQ01" "3" "run_[FLOWCELL]_[LANE]" = "run_HISEQ01_3".
Proof. reflexivity. Qed.

Example main_needs_templates_or_tags : main_rgs_data None None = None.
Proof. reflexivity. Qed.

Example main_tags_only :
  main_rgs_data None (Some ["ID:x"; "SM:s"]) = Some (Some [ {[ "ID" := "x"; "SM" := "s" ]} ]).
Proof. by vm_compute. Qed.

Example replace_all_occurrences :
  PyStr.replace "[FLOWCELL]" "HISEQ01" "run_[FLOWCELL]_[LANE][FLOWCELL]" =
  "run_HISEQ01_[LANE]HISEQ01".
Proof. reflexivity. Qed.

Example replace_left_to_right : PyStr.replace "aa" "b" "aaaaa" = "bba".
Proof. reflexivity. Qed.

Example split_keeps_empty_fields : PyStr.split ":" "a::b:" = ["a"; ""; "b"; ""].
Proof. reflexivity. Qed.

(** With library preservation an empty [LB] tag gives a template without
    [ID] the empty identifier: the header lists it, the record stays
    untagged. *)
Example empty_library :
  process_bam ∅ [mkRead "readA" {[ "LB" := "" ]} "aln"]
    [ {[ "SM" := "s" ]} ] true false =
  Some {| out_header :=
            {[ "RG" := Lines [ {[ "ID" := ""; "LB" := ""; "SM" := "s" ]} ] ]};
          out_reads := [mkRead "readA" {[ "LB" := "" ]} "aln"];
          out_counts := [("None", 1)] |}.
Proof. by vm_compute. Qed.

(** * Further properties of the script *)

(** ** Replacing placeholders *)

Lemma prefix_app old s : String.prefix old (old +:+ s) = true.
Proof.
  induction old as [|c old IH]; simpl; [by destruct s|].
  by destruct (ascii_dec c c).
Qed.

Lemma prefix_head_ne c old c' s :
  c ≠ c' → String.prefix (String c old) (String c' s) = false.
Proof. intros Hne. simpl. by destruct (ascii_dec c c'). Qed.

Lemma replace_go_skip old new (x s : string) :
  PyStr.replace_go old new (String.length x) (x +:+ s) = PyStr.replace_go old new 0 s.
Proof.
  induction x as [|c x IH]; simpl; [|done].
  destruct s; done.
Qed.

(** An occurrence at the front is replaced, and the scan goes on behind it. *)
Lemma replace_go_match c old new s :
  PyStr.replace_go (String c old) new 0 (String c old +:+ s) =
  new +:+ PyStr.replace_go (String c old) new 0 s.
Proof.
  change (String c old +:+ s) with (String c (old +:+ s)).
  cbn [PyStr.replace_go].
  change (String c (old +:+ s)) with (String c old +:+ s).
  rewrite prefix_app. f_equal.
  replace (String.length (String c old) - 1) with (String.length old)
    by (simpl; lia).
  apply replace_go_skip.
Qed.

(** Text without the first character of [old] is copied. *)
Lemma replace_go_text c old new (a s : string) :
  PyStr.count c a = 0 →
  PyStr.replace_go (String c old) new 0 (a +:+ s) =
  a +:+ PyStr.replace_go (String c old) new 0 s.
Proof.
  induction a as [|c' a IH]; [done|]. cbn [PyStr.count].
  destruct (Ascii.eqb_spec c' c) as [->|Hne]; [lia|]. intros Ha.
  change (String c' a +:+ s) with (String c' (a +:+ s)).
  cbn [PyStr.replace_go].
  rewrite prefix_head_ne by congruence. by rewrite IH.
Qed.

Lemma replace_go_nil old new : PyStr.replace_go old new 0 "" = "".
Proof. done. Qed.

Lemma string_app_assoc (a b c : string) : (a +:+ b) +:+ c = a +:+ b +:+ c.
Proof.
  induction a as [|x a IH]; [done|].
  change (String x ((a +:+ b) +:+ c) = String x (a +:+ b +:+ c)). by f_equal.
Qed.

Lemma string_app_nil_r (a : string) : a +:+ "" = a.
Proof.
  induction a as [|x a IH]; [done|].
  change (String x (a +:+ "") = String x a). by f_equal.
Qed.

(** Where [old] does not occur, nothing is replaced. *)
Lemma replace_absent old new s :
  PyStr.contains old s = false → PyStr.replace old new s = s.
Proof.
  destruct old as [|c old]; [by destruct s|].
  unfold PyStr.replace. induction s as [|c' s IH]; [done|].
  cbn [PyStr.contains PyStr.replace_go].
  intros [Hp Hs]%orb_false_elim. rewrite Hp. by rewrite IH.
Qed.

(** The guards of lines 55 and 57 change nothing: a value is resolved by the
    two replacements, flowcell first. *)
Lemma resolve_value_replace fc lane v :
  resolve_value fc lane v =
  PyStr.replace "[LANE]" lane (PyStr.replace "[FLOWCELL]" fc v).
Proof.
  unfold resolve_value.
  destruct (PyStr.contains "[FLOWCELL]" v) eqn:Hfc.
  - destruct (PyStr.contains "[LANE]" _) eqn:Hl; [done|].
    by rewrite (replace_absent "[LANE]").
  - rewrite (replace_absent "[FLOWCELL]") by done.
    destruct (PyStr.contains "[LANE]" v) eqn:Hl; [done|].
    by rewrite (replace_absent "[LANE]").
Qed.

Lemma replace_flowcell_render fc pieces :
  Forall text_bracket_free pieces →
  PyStr.replace "[FLOWCELL]" fc (render pieces) =
  render ((λ p, match p with Flowcell => Text fc | _ => p end) <$> pieces).
Proof.
  unfold PyStr.replace. induction 1 as [|p pieces Hp _ IH]; [done|].
  rewrite fmap_cons. destruct p as [s| |]; cbn [render].
  - by rewrite replace_go_text, IH.
  - by rewrite replace_go_match, IH.
  - change ("[LANE]" +:+ render pieces) with (String "[" ("LANE]" +:+ render pieces)).
    cbn [PyStr.replace_go].
    change (String.prefix "[FLOWCELL]" (String "[" ("LANE]" +:+ render pieces)))
      with false.
    cbn match. by rewrite (replace_go_text _ _ _ "LANE]"), IH.
Qed.

Lemma replace_lane_render lane pieces :
  Forall text_bracket_free pieces →
  PyStr.replace "[LANE]" lane (render pieces) =
  render ((λ p, match p with Lane => Text lane | _ => p end) <$> pieces).
Proof.
  unfold PyStr.replace. induction 1 as [|p pieces Hp _ IH]; [done|].
  rewrite fmap_cons. destruct p as [s| |]; cbn [render].
  - by rewrite replace_go_text, IH.
  - change ("[FLOWCELL]" +:+ render pieces)
      with (String "[" ("FLOWCELL]" +:+ render pieces)).
    cbn [PyStr.replace_go].
    change (String.prefix "[LANE]" (String "[" ("FLOWCELL]" +:+ render pieces)))
      with false.
    cbn match. by rewrite (replace_go_text _ _ _ "FLOWCELL]"), IH.
  - by rewrite replace_go_match, IH.
Qed.

Lemma resolve_value_render fc lane pieces :
  Forall text_bracket_free pieces → bracket_free fc →
  resolve_value fc lane (render pieces) = fill fc lane pieces.
Proof.
  intros Hp Hfc. rewrite resolve_value_replace, replace_flowcell_render by done.
  rewrite replace_lane_render.
  - induction pieces as [|[s| |] pieces IH]; [done|..]; inv Hp; cbn; f_equal; auto.
  - apply Forall_fmap. eapply Forall_impl; [done|]. by intros [s| |].
Qed.

(** X1. A template value made of text without opening brackets and of
    placeholders resolves, for a flowcell token without opening bracket, to
    the text with the flowcell in the place of every [[FLOWCELL]] and the lane
    in the place of every [[LANE]]; the key keeps its name. *)
Theorem resolve_rg_fills_placeholders (rg_template : attrs) (k : string)
    (pieces : list piece) (flowcell lane : string) :
  rg_template !! k = Some (render pieces) →
  Forall text_bracket_free pieces →
  bracket_free flowcell →
  resolve_rg rg_template flowcell lane !! k = Some (fill flowcell lane pieces).
Proof.
  intros Hk Hp Hfc. unfold resolve_rg. rewrite lookup_fmap, Hk. simpl.
  by rewrite resolve_value_render.
Qed.

Lemma resolve_rg_fills_placeholders_witness :
  resolve_rg {[ "ID" := "run_[FLOWCELL]_[LANE].[FLOWCELL]" ]} "HISEQ01" "3" !! "ID" =
  Some "run_HISEQ01_3.HISEQ01".
Proof.
  apply (resolve_rg_fills_placeholders _ "ID"
           [Text "run_"; Flowcell; Text "_"; Lane; Text "."; Flowcell] "HISEQ01" "3").
  - reflexivity.
  - repeat constructor.
  - reflexivity.
Defined.

(** The flowcell is substituted first, so a flowcell token that holds
    [[LANE]] has the lane put into it; a lane token that holds [[FLOWCELL]]
    stays as it is. *)
Example flowcell_token_with_placeholder :
  resolve_value "[LANE]" "3" "[FLOWCELL]" = "3" ∧
  resolve_value "FC" "[FLOWCELL]" "[LANE]" = "[FLOWCELL]".
Proof. done. Qed.

(** ** Detection of placeholders *)

Lemma placeholders_false rgs_data :
  placeholders rgs_data = false ↔
  ∀ template k v, template ∈ rgs_data → template !! k = Some v →
                  has_placeholder v = false.
Proof.
  unfold placeholders. split.
  - intros Hex template k v Ht Hk.
    destruct (has_placeholder v) eqn:Hv; [|done].
    assert (existsb (λ rg : attrs, existsb has_placeholder (map_to_list rg).*2)
                    rgs_data = true) as Htrue; [|congruence].
    apply existsb_exists. exists template. split; [by apply list_elem_of_In|].
    apply existsb_exists. exists v. split; [|done].
    apply list_elem_of_In. change v with (k, v).2.
    by apply list_elem_of_fmap_2, elem_of_map_to_list.
  - intros Hall. apply not_true_is_false. intros Hex.
    apply existsb_exists in Hex as (template & Ht%list_elem_of_In & Hex).
    apply existsb_exists in Hex as (v & Hv%list_elem_of_In & Hpl).
    apply list_elem_of_fmap in Hv as ([k v'] & -> & Hkv%elem_of_map_to_list).
    simpl in Hpl. rewrite (Hall template k v') in Hpl; done.
Qed.

Lemma resolve_value_plain fc lane v : has_placeholder v = false → resolve_value fc lane v = v.
Proof.
  unfold has_placeholder, resolve_value. intros [-> Hl]%orb_false_elim. by rewrite Hl.
Qed.

(** X2. The detection of lines 66-71 finds no placeholder exactly when no
    value of any template holds one, and then every template resolves to
    itself for every record: the first pass that is skipped would register
    the templates themselves. *)
Theorem templates_without_placeholders (rgs_data : list attrs) :
  placeholders rgs_data = false →
  (∀ template k v, template ∈ rgs_data → template !! k = Some v →
     PyStr.contains "[FLOWCELL]" v = false ∧ PyStr.contains "[LANE]" v = false) ∧
  (∀ template fc lane, template ∈ rgs_data →
     resolve_rg template fc lane = template ∧
     pass1_resolved template fc lane None = template) ∧
  need_pass1 rgs_data false = false.
Proof.
  intros Hpl. pose proof (proj1 (placeholders_false rgs_data) Hpl) as Hall.
  split_and!.
  - intros template k v Ht Hk. apply orb_false_elim. by apply (Hall template k v).
  - intros template fc lane Ht.
    assert (resolve_rg template fc lane = template) as Hres; [|done].
    unfold resolve_rg. apply map_eq. intros k. rewrite lookup_fmap.
    destruct (template !! k) as [v|] eqn:Hk; [|done]. simpl.
    by rewrite (resolve_value_plain fc lane v (Hall template k v Ht Hk)).
  - unfold need_pass1. by rewrite Hpl.
Qed.

Lemma templates_without_placeholders_witness :
  resolve_rg {[ "ID" := "a"; "SM" := "s[1]" ]} "FC1" "2" = {[ "ID" := "a"; "SM" := "s[1]" ]}.
Proof.
  apply (templates_without_placeholders [ {[ "ID" := "a"; "SM" := "s[1]" ]} ]);
    [reflexivity|left].
Defined.

(** ** The library index *)

(** X3. The library index gives, for an identifier, the [LB] of the last
    read group of the input header that has this [ID] and an [LB]; header
    entries without [ID] or without [LB] leave no trace, and an identifier no
    such entry carries is not in the index.  Without library preservation the
    index is empty. *)
Theorem rg_to_lb_lookup (hdr : header) (id : string) :
  rg_to_lb_of hdr true !! id =
    last (filter (λ e : attrs, e !! "ID" = Some id ∧ is_Some (e !! "LB"))
                 (header_RG hdr)) ≫= (.!! "LB") ∧
  (∀ lb, rg_to_lb_of hdr true !! id = Some lb →
         ∃ e, e ∈ header_RG hdr ∧ e !! "ID" = Some id ∧ e !! "LB" = Some lb) ∧
  rg_to_lb_of hdr false !! id = None.
Proof.
  assert (rg_to_lb_of hdr true !! id =
          last (filter (λ e : attrs, e !! "ID" = Some id ∧ is_Some (e !! "LB"))
                       (header_RG hdr)) ≫= (.!! "LB")) as Heq.
  { unfold rg_to_lb_of, build_rg_to_lb. rewrite rg_to_lb_foldl.
    by destruct (last _). }
  split_and!; [done| |done].
  intros lb. rewrite Heq. destruct (last _) as [e|] eqn:Hlast; [|done].
  simpl. intros Hlb. exists e.
  apply last_Some_elem_of, list_elem_of_filter in Hlast as [[Hid _] Hin]. done.
Qed.

Lemma rg_to_lb_lookup_witness :
  rg_to_lb_of {[ "RG" := Lines [ {[ "ID" := "rg1"; "LB" := "old" ]};
                                 {[ "ID" := "rg2" ]};
                                 {[ "ID" := "rg1"; "LB" := "libX" ]} ] ]} true !! "rg1"
  = Some "libX".
Proof.
  destruct (rg_to_lb_lookup
              {[ "RG" := Lines [ {[ "ID" := "rg1"; "LB" := "old" ]};
                                 {[ "ID" := "rg2" ]};
                                 {[ "ID" := "rg1"; "LB" := "libX" ]} ] ]} "rg1")
    as (Heq & _ & _).
  rewrite Heq. reflexivity.
Defined.

(** ** Names built from fields *)

Lemma split_sep_free sep s : PyStr.count sep s = 0 → PyStr.split sep s = [s].
Proof.
  induction s as [|c s IH]; [done|]. cbn [PyStr.count PyStr.split].
  destruct (Ascii.eqb c sep); [lia|]. intros Hs. by rewrite IH.
Qed.

Lemma split_app sep f s :
  PyStr.count sep f = 0 →
  PyStr.split sep (f +:+ String sep s) = f :: PyStr.split sep s.
Proof.
  induction f as [|c f IH].
  - intros _. change ("" +:+ String sep s) with (String sep s).
    cbn [PyStr.split]. by rewrite Ascii.eqb_refl.
  - cbn [PyStr.count]. change (String c f +:+ String sep s)
      with (String c (f +:+ String sep s)).
    cbn [PyStr.split]. destruct (Ascii.eqb c sep); [lia|].
    intros Hf. by rewrite IH.
Qed.

Lemma split_join_fields sep f fields :
  Forall (λ f, PyStr.count sep f = 0) (f :: fields) →
  PyStr.split sep (PyStr.join sep (f :: fields)) = f :: fields.
Proof.
  revert f. induction fields as [|g fields IH]; intros f Hall.
  - apply split_sep_free. by inv Hall.
  - inv Hall. rewrite PyStrFacts.join_cons, split_app by done. by rewrite IH.
Qed.

(** X4. A name put together from colon-free fields tokenizes to its third
    and fourth field when it has four fields or more, whatever comes after
    them, and to the pair of unknowns when it has fewer. *)
Theorem get_flowcell_lane_fields (field : string) (fields : list string) :
  Forall (λ f, PyStr.count ":" f = 0) (field :: fields) →
  get_flowcell_lane (PyStr.join ":" (field :: fields)) =
  Some match fields with
       | _ :: fc :: lane :: _ => (fc, lane)
       | _ => ("unknown_fc", "unknown_lane")
       end.
Proof.
  intros Hall. unfold get_flowcell_lane. rewrite split_join_fields by done.
  destruct fields as [|p1 [|fc [|lane rest]]]; done.
Qed.

Lemma get_flowcell_lane_fields_witness :
  get_flowcell_lane "M01:55:FCX:2:1101:9:7" = Some ("FCX", "2").
Proof.
  apply (get_flowcell_lane_fields "M01" ["55"; "FCX"; "2"; "1101"; "9"; "7"]).
  repeat constructor.
Defined.

(** ** The read groups of the rewritten header *)

Lemma well_keyed_values_keys (d : PyDict.t attrs) :
  well_keyed d → (λ e : attrs, default "" (e !! "ID")) <$> PyDict.values d = PyDict.keys d.
Proof.
  intros [_ Hall]. unfold PyDict.values, PyDict.keys.
  induction Hall as [|[k v] d Hkv _ IH]; [done|].
  rewrite !fmap_cons. simpl in *. by rewrite Hkv, IH.
Qed.

Lemma ids_of_entries (entries : list attrs) :
  Forall (λ e : attrs, is_Some (e !! "ID")) entries →
  (.!! "ID") <$> entries = Some <$> ((λ e : attrs, default "" (e !! "ID")) <$> entries).
Proof.
  induction 1 as [|e entries [id Hid] _ IH]; [done|].
  rewrite !fmap_cons, IH, Hid. done.
Qed.

(** X5. In the header of a completed run every read group has an [ID] and
    no two read groups have the same [ID]. *)
Theorem header_rg_ids_distinct (hdr : header) (reads : list AlignedSegment)
    (rgs_data : list attrs) (preserve_lb strip_pg : bool) (res : result) :
  process_bam hdr reads rgs_data preserve_lb strip_pg = Some res →
  ∃ ids,
    (.!! "ID") <$> header_RG (out_header res) = Some <$> ids ∧
    NoDup ids.
Proof.
  rewrite process_bam_Some. intros [= <-].
  pose proof (final_rgs_well_keyed hdr reads rgs_data preserve_lb) as Hwk.
  eexists. cbn [out_header]. rewrite header_RG_rewrite. split.
  - apply ids_of_entries, Forall_forall. intros e He%py_sorted_elem.
    by eapply final_rgs_values_ID.
  - rewrite sorted_rgs_perm, well_keyed_values_keys by done. apply Hwk.
Qed.

Lemma header_rg_ids_distinct_witness :
  ∃ ids,
    (.!! "ID") <$> [ ({[ "ID" := "b" ]} : attrs); {[ "ID" := "a"; "SM" := "s" ]} ] =
      Some <$> ids ∧
    NoDup ids.
Proof.
  destruct (header_rg_ids_distinct ∅ [mkRead "readA" ∅ "aln"]
           [ {[ "ID" := "b" ]}; {[ "ID" := "a" ]}; {[ "ID" := "a"; "SM" := "s" ]} ]
           false false
           {| out_header :=
                {[ "RG" := Lines [ {[ "ID" := "b" ]}; {[ "ID" := "a"; "SM" := "s" ]} ] ]};
              out_reads := [mkRead "readA" {[ "RG" := "b" ]} "aln"];
              out_counts := [("b", 1)] |}) as (ids & Hids & Hnd); [by vm_compute|].
  exists ids. split; [exact Hids|exact Hnd].
Defined.

(** X6. Every read group of the rewritten header is a mapping the script
    offered: the resolution of a template for a record of the container when
    a first pass runs, a template otherwise.  Every identifier offered has a
    read group in the header.  With a first pass an empty container gives a
    header without read groups. *)
Theorem header_rg_offered (hdr : header) (reads : list AlignedSegment)
    (rgs_data : list attrs) (preserve_lb strip_pg : bool) :
  ∃ res,
    process_bam hdr reads rgs_data preserve_lb strip_pg = Some res ∧
    (∀ entry, entry ∈ header_RG (out_header res) →
       if need_pass1 rgs_data preserve_lb then
         ∃ read template fc lane,
           read ∈ reads ∧ template ∈ rgs_data ∧
           get_flowcell_lane (query_name read) = Some (fc, lane) ∧
           entry = pass1_resolved template fc lane
                     (pass1_current_lb preserve_lb (rg_to_lb_of hdr preserve_lb) read)
       else entry ∈ rgs_data) ∧
    (∀ read template fc lane id,
       read ∈ reads → template ∈ rgs_data →
       get_flowcell_lane (query_name read) = Some (fc, lane) →
       (if need_pass1 rgs_data preserve_lb then
          pass1_resolved template fc lane
            (pass1_current_lb preserve_lb (rg_to_lb_of hdr preserve_lb) read)
        else template) !! "ID" = Some id →
       ∃ entry, entry ∈ header_RG (out_header res) ∧ entry !! "ID" = Some id) ∧
    (need_pass1 rgs_data preserve_lb = true → reads = [] →
       header_RG (out_header res) = []).
Proof.
  eexists. split; [apply process_bam_Some|].
  cbn [out_header]. rewrite header_RG_rewrite. unfold final_rgs. split_and!.
  - intros entry He%py_sorted_elem. unfold PyDict.values in He.
    apply list_elem_of_fmap in He as ([k m] & -> & Hin). simpl.
    assert (PyDict.get
              (if need_pass1 rgs_data preserve_lb
               then foldl upsert PyDict.empty
                      (upserts preserve_lb (rg_to_lb_of hdr preserve_lb) rgs_data reads)
               else literal_rgs rgs_data) k = Some m) as Hget.
    { apply PyDictFacts.elem_get; [|done].
      apply (final_rgs_well_keyed hdr reads rgs_data preserve_lb). }
    destruct (need_pass1 rgs_data preserve_lb).
    + rewrite get_foldl_upsert in Hget.
      destruct (last _) as [m'|] eqn:Hlast; [|done]. injection Hget as ->.
      apply last_Some_elem_of, list_elem_of_filter in Hlast as [_ Hup].
      apply elem_of_upserts in Hup as (read & template & Hr & Ht & ->).
      exists read, template, (flowcell_lane (query_name read)).1,
        (flowcell_lane (query_name read)).2.
      split_and!; [done..| |done].
      rewrite get_flowcell_lane_Some. by destruct (flowcell_lane _).
    + unfold literal_rgs in Hget. rewrite get_foldl_upsert in Hget.
      destruct (last _) as [m'|] eqn:Hlast; [|done]. injection Hget as ->.
      by apply last_Some_elem_of, list_elem_of_filter in Hlast as [_ Hup].
  - intros read template fc lane id Hr Ht Hfl Hid.
    rewrite get_flowcell_lane_Some in Hfl.
    destruct (need_pass1 rgs_data preserve_lb).
    + destruct (foldl_upsert_registered
                  (upserts preserve_lb (rg_to_lb_of hdr preserve_lb) rgs_data reads)
                  PyDict.empty
                  (resolved_for preserve_lb (rg_to_lb_of hdr preserve_lb) read template)
                  id) as (m' & Hget & _ & Hid').
      { apply elem_of_upserts. by exists read, template. }
      { unfold resolved_for. destruct (flowcell_lane _). by simplify_eq/=. }
      exists m'. split; [|done]. apply py_sorted_elem. by eapply get_values.
    + destruct (foldl_upsert_registered rgs_data PyDict.empty template id)
        as (m' & Hget & _ & Hid'); [done..|].
      exists m'. split; [|done]. apply py_sorted_elem. by eapply get_values.
  - intros -> ->. done.
Qed.

Lemma header_rg_offered_witness :
  ∃ res,
    process_bam ∅ [mkRead "a:b:FC1:2" ∅ "aln"]
      [ {[ "ID" := "[FLOWCELL].[LANE]" ]} ] false false = Some res ∧
    ∃ entry, entry ∈ header_RG (out_header res) ∧ entry !! "ID" = Some "FC1.2".
Proof.
  destruct (header_rg_offered ∅ [mkRead "a:b:FC1:2" ∅ "aln"]
              [ {[ "ID" := "[FLOWCELL].[LANE]" ]} ] false false)
    as (res & Hres & _ & Hall & _).
  exists res. split; [exact Hres|].
  apply (Hall (mkRead "a:b:FC1:2" ∅ "aln") {[ "ID" := "[FLOWCELL].[LANE]" ]}
              "FC1" "2" "FC1.2"); [left|left|reflexivity|reflexivity].
Defined.

(** ** What the second pass does to a record *)

(** X7. Every read-group tag the script puts on a record is not empty and is
    the [ID] of a read group of the rewritten header. *)
Theorem assigned_tags_in_header (hdr : header) (reads : list AlignedSegment)
    (rgs_data : list attrs) (preserve_lb strip_pg : bool) :
  ∃ res,
    process_bam hdr reads rgs_data preserve_lb strip_pg = Some res ∧
    Forall2 (λ read read',
               read' = read ∨
               ∃ id entry,
                 id ≠ "" ∧ read' = set_tag read "RG" id ∧
                 entry ∈ header_RG (out_header res) ∧ entry !! "ID" = Some id)
            reads (out_reads res).
Proof.
  eexists. split; [apply process_bam_Some|]. cbn [out_header out_reads].
  apply Forall2_fmap_r, Forall_Forall2_diag, Forall_forall. intros read Hread.
  unfold rewritten, compose.
  destruct (assign_tag_cases
              (candidate (need_pass1 rgs_data preserve_lb) preserve_lb
                         (rg_to_lb_of hdr preserve_lb) rgs_data read) read)
    as [[_ ->]|(id & Hcand & Hne & ->)]; [by left|right].
  destruct (candidate_registered hdr reads rgs_data preserve_lb strip_pg read id)
    as (entry & Hin & Hid); [done..|].
  by exists id, entry.
Qed.

(** X8. The second pass changes nothing of a record but its read-group tag:
    the name, the alignment fields and every other tag are written as they
    were read, and a record that came with a read-group tag leaves with
    one. *)
Theorem records_only_retagged (hdr : header) (reads : list AlignedSegment)
    (rgs_data : list attrs) (preserve_lb strip_pg : bool) :
  ∃ res,
    process_bam hdr reads rgs_data preserve_lb strip_pg = Some res ∧
    Forall2 (λ read read',
               query_name read' = query_name read ∧
               alignment read' = alignment read ∧
               (∀ tag, tag ≠ "RG" → get_tag read' tag = get_tag read tag) ∧
               (is_Some (get_tag read "RG") → is_Some (get_tag read' "RG")))
            reads (out_reads res).
Proof.
  eexists. split; [apply process_bam_Some|]. cbn [out_reads].
  apply Forall2_fmap_r, Forall_Forall2_diag, Forall_forall. intros read _.
  unfold rewritten, compose.
  destruct (assign_tag_cases
              (candidate (need_pass1 rgs_data preserve_lb) preserve_lb
                         (rg_to_lb_of hdr preserve_lb) rgs_data read) read)
    as [[_ ->]|(id & _ & _ & ->)]; [done|].
  split_and!; [done..| |].
  - intros tag Htag. unfold get_tag, set_tag. simpl. by rewrite lookup_insert_ne.
  - intros _. unfold get_tag, set_tag. simpl. rewrite lookup_insert_eq. by eexists.
Qed.

Lemma records_only_retagged_witness :
  ∃ res,
    process_bam ∅ [mkRead "a:b:FC1:2" {[ "NM" := "0" ]} "aln"]
      [ {[ "ID" := "x" ]} ] false false = Some res ∧
    ∃ read', out_reads res = [read'] ∧ get_tag read' "NM" = Some "0".
Proof.
  destruct (records_only_retagged ∅ [mkRead "a:b:FC1:2" {[ "NM" := "0" ]} "aln"]
              [ {[ "ID" := "x" ]} ] false false) as (res & Hres & Hall).
  exists res. split; [exact Hres|].
  apply Forall2_cons_inv_l in Hall as (read' & l & (_ & _ & Htags & _) & Hnil & ->).
  apply Forall2_nil_inv_l in Hnil as ->.
  exists read'. split; [reflexivity|]. rewrite Htags; [reflexivity|discriminate].
Defined.

(** ** Runs without a first pass *)

Lemma count_bucket_set_tag read id : count_bucket (set_tag read "RG" id) = id.
Proof. unfold count_bucket, get_tag, set_tag. simpl. by rewrite lookup_insert_eq. Qed.

Lemma foldl_increment_one id n (buckets : list string) :
  Forall (id =.) buckets →
  foldl increment [(id, n)] buckets = [(id, n + length buckets)].
Proof.
  intros Hall. revert n. induction Hall as [|b buckets <- _ IH]; intros n; simpl.
  - by rewrite Nat.add_0_r.
  - unfold increment at 2. cbn [PyDict.get PyDict.set]. rewrite String.eqb_refl.
    simpl. rewrite IH. do 2 f_equal. lia.
Qed.

(** X9. Without placeholders and without library preservation every record
    gets the [ID] of the first template, when that is not empty, whatever
    tag it had; the counts then have this one bucket, holding the number of
    records. *)
Theorem literal_assignment (hdr : header) (reads : list AlignedSegment)
    (template : attrs) (rgs_data : list attrs) (id : string) (strip_pg : bool) :
  placeholders (template :: rgs_data) = false →
  template !! "ID" = Some id →
  id ≠ "" →
  ∃ res,
    process_bam hdr reads (template :: rgs_data) false strip_pg = Some res ∧
    out_reads res = (λ read, set_tag read "RG" id) <$> reads ∧
    out_counts res = match reads with
                     | [] => []
                     | _ :: _ => [(id, length reads)]
                     end.
Proof.
  intros Hpl Hid Hne. eexists. split; [apply process_bam_Some|].
  cbn [out_reads out_counts].
  assert (need_pass1 (template :: rgs_data) false = false) as ->
    by (unfold need_pass1; by rewrite Hpl).
  assert (∀ read, rewritten false false (rg_to_lb_of hdr false)
                    (template :: rgs_data) read = set_tag read "RG" id) as Hrw.
  { intros read. unfold rewritten. rewrite candidate_literal, Hid.
    by destruct id. }
  assert (rewritten false false (rg_to_lb_of hdr false) (template :: rgs_data) <$> reads
          = (λ read, set_tag read "RG" id) <$> reads) as ->.
  { apply list_fmap_ext. intros i read _. apply Hrw. }
  split; [done|]. destruct reads as [|read reads]; [done|].
  rewrite !fmap_cons. cbn [foldl]. rewrite count_bucket_set_tag.
  change (increment PyDict.empty id) with [(id, 1)].
  rewrite foldl_increment_one.
  - by rewrite !length_fmap.
  - apply Forall_fmap, Forall_fmap, Forall_forall. intros r _. simpl.
    by rewrite count_bucket_set_tag.
Qed.

Lemma literal_assignment_witness :
  ∃ res,
    process_bam ∅ [mkRead "r1" {[ "RG" := "old" ]} "a"; mkRead "r2" ∅ "b"]
      [ {[ "ID" := "x"; "SM" := "s" ]}; {[ "ID" := "y" ]} ] false false = Some res ∧
    out_counts res = [("x", 2)].
Proof.
  destruct (literal_assignment ∅ [mkRead "r1" {[ "RG" := "old" ]} "a"; mkRead "r2" ∅ "b"]
              {[ "ID" := "x"; "SM" := "s" ]} [ {[ "ID" := "y" ]} ] "x" false)
    as (res & Hres & _ & Hcounts); [reflexivity|reflexivity|discriminate|].
  exists res. split; [exact Hres|exact Hcounts].
Defined.

Lemma upserts_no_templates preserve_lb rg_to_lb reads :
  upserts preserve_lb rg_to_lb [] reads = [].
Proof. unfold upserts. induction reads as [|r reads IH]; [done|]. by csimpl. Qed.

(** X10. A template file without rows leaves [process_bam] with no
    template.  In a completed run every record is then written as it was
    read, the counts are those of the tags the records came with, and the
    header has lost its read groups and, when stripping is asked for, its
    program history, and nothing else. *)
Theorem no_templates (tag_strs : option (list string)) (hdr : header)
    (reads : list AlignedSegment) (preserve_lb strip_pg : bool) (res : result) :
  process_bam hdr reads [] preserve_lb strip_pg = Some res →
  main_rgs_data (Some []) tag_strs = Some (Some []) ∧
  out_header res = <["RG" := Lines []]> (if strip_pg then delete "PG" hdr else hdr) ∧
  header_RG (out_header res) = [] ∧
  out_reads res = reads ∧
  ∀ bucket,
    default 0 (PyDict.get (out_counts res) bucket) =
    length (filter (λ read, bucket = match tags read !! "RG" with
                                      | Some rg => rg
                                      | None => "None"
                                      end) reads).
Proof.
  rewrite process_bam_Some. intros [= <-]. cbn [out_header out_reads out_counts].
  assert (main_rgs_data (Some []) tag_strs = Some (Some [])) as Hdata.
  { unfold main_rgs_data. destruct tag_strs as [[|t ts]|]; [done| |done].
    by rewrite merge_tags_Some. }
  assert (final_rgs hdr reads [] preserve_lb = []) as ->.
  { unfold final_rgs. destruct (need_pass1 _ _); [|done].
    by rewrite upserts_no_templates. }
  assert (rewritten (need_pass1 [] preserve_lb) preserve_lb
            (rg_to_lb_of hdr preserve_lb) [] <$> reads = reads) as ->.
  { rewrite <-(list_fmap_id reads) at 2. apply list_fmap_ext. intros i read _.
    unfold rewritten. by rewrite candidate_nil. }
  rewrite header_RG_rewrite, rewrite_header_eq. split_and!; [done..|].
  intros bucket. by rewrite get_foldl_increment, length_filter_fmap.
Qed.

Lemma no_templates_witness :
  main_rgs_data (Some []) (Some ["SM:s"]) = Some (Some []) ∧
  out_reads {| out_header := {[ "RG" := Lines [] ]};
               out_reads := [mkRead "readA" {[ "RG" := "old" ]} "aln"];
               out_counts := [("old", 1)] |} =
  [mkRead "readA" {[ "RG" := "old" ]} "aln"].
Proof.
  destruct (no_templates (Some ["SM:s"])
              {[ "RG" := Lines [ {[ "ID" := "old" ]} ] ]}
              [mkRead "readA" {[ "RG" := "old" ]} "aln"] false false
              {| out_header := {[ "RG" := Lines [] ]};
                 out_reads := [mkRead "readA" {[ "RG" := "old" ]} "aln"];
                 out_counts := [("old", 1)] |})
    as (Hdata & _ & _ & Hreads & _); [by vm_compute|].
  split; [exact Hdata|exact Hreads].
Defined.

(** ** The summary *)

Lemma keys_foldl_increment (c : PyDict.t nat) (buckets : list string) :
  PyDict.keys (foldl increment c buckets) =
  PyDict.keys c ++ first_seen (PyDict.keys c) buckets.
Proof.
  revert c. induction buckets as [|b buckets IH]; intros c.
  - by rewrite app_nil_r.
  - cbn [foldl first_seen]. rewrite IH.
    assert (PyDict.keys (increment c b) =
            if decide (b ∈ PyDict.keys c) then PyDict.keys c else PyDict.keys c ++ [b])
      as -> by apply PyDictFacts.keys_set.
    case_bool_decide as Hb.
    + by rewrite decide_True.
    + rewrite decide_False by done. by rewrite <-app_assoc.
Qed.

(** X11. The counts list every bucket once, in the order in which the
    buckets are first met among the written records: this is the order of
    the lines of the summary. *)
Theorem counts_in_first_seen_order (hdr : header) (reads : list AlignedSegment)
    (rgs_data : list attrs) (preserve_lb strip_pg : bool) :
  ∃ res,
    process_bam hdr reads rgs_data preserve_lb strip_pg = Some res ∧
    PyDict.keys (out_counts res) = first_seen [] (count_bucket <$> out_reads res).
Proof.
  eexists. split; [apply process_bam_Some|]. cbn [out_reads out_counts].
  apply keys_foldl_increment.
Qed.

(** ** Runs configured by tags alone *)

(** X12. Without a template file the configuration check of line 178 fails
    exactly when no tag string is given.  With at least one tag string
    [process_bam] is handed exactly one template, made of the overrides
    alone: a key holds the value of the last override that names it, and a
    key no override names is absent. *)
Theorem tags_only_template (tags : option (list string)) :
  match tags with
  | None | Some [] => main_rgs_data None tags = None
  | Some (tag :: tags') =>
      ∃ template : attrs,
        main_rgs_data None tags = Some (Some [template]) ∧
        (∀ k, (∀ v, k +:+ ":" +:+ v ∉ tag :: tags') → template !! k = None) ∧
        (∀ before k v after,
           tag :: tags' = before ++ (k +:+ ":" +:+ v) :: after →
           PyStr.count ":" k = 0 →
           (∀ v', k +:+ ":" +:+ v' ∉ after) →
           template !! k = Some v)
  end.
Proof.
  destruct tags as [[|tag tags']|]; [done| |done].
  eexists. split.
  { unfold main_rgs_data. rewrite merge_tags_Some. by rewrite fmap_cons. }
  split.
  - intros k Hk. rewrite lookup_union, foldl_override_keep by done.
    by rewrite !lookup_empty.
  - intros before k v after Htags Hk Hafter.
    rewrite lookup_union, Htags, foldl_override_last by done.
    by rewrite lookup_empty.
Qed.

Lemma tags_only_template_witness :
  ∃ template : attrs,
    main_rgs_data None (Some ["ID:x"; "junk"; "ID:y:z"]) = Some (Some [template]) ∧
    template !! "ID" = Some "y:z" ∧ template !! "SM" = None.
Proof.
  destruct (tags_only_template (Some ["ID:x"; "junk"; "ID:y:z"]))
    as (template & Hdata & Hnone & Hlast).
  exists template. split_and!; [exact Hdata| |].
  - apply (Hlast ["ID:x"; "junk"] "ID" "y:z" []); [reflexivity..|].
    intros v'. apply not_elem_of_nil.
  - apply Hnone. intros v Hin.
    repeat (apply elem_of_cons in Hin as [Hin|Hin]; [discriminate|]).
    by apply elem_of_nil in Hin.
Defined.

(** ** Runs without library preservation *)

Lemma resolved_for_names rg_to_lb rg_to_lb' read read' template :
  query_name read = query_name read' →
  resolved_for false rg_to_lb read template = resolved_for false rg_to_lb' read' template.
Proof. intros Hn. unfold resolved_for. by rewrite Hn. Qed.

Lemma upserts_names rg_to_lb rg_to_lb' rgs_data reads reads' :
  Forall2 (λ read read', query_name read = query_name read') reads reads' →
  upserts false rg_to_lb rgs_data reads = upserts false rg_to_lb' rgs_data reads'.
Proof.
  unfold upserts. induction 1 as [|read read' reads reads' Hn _ IH]; [done|].
  csimpl. rewrite IH. f_equal. apply list_fmap_ext. intros i template _.
  by apply resolved_for_names.
Qed.

Lemma final_rgs_names hdr hdr' rgs_data reads reads' :
  Forall2 (λ read read', query_name read = query_name read') reads reads' →
  final_rgs hdr reads rgs_data false = final_rgs hdr' reads' rgs_data false.
Proof.
  intros Hn. unfold final_rgs. destruct (need_pass1 _ _); [|done].
  by rewrite (upserts_names _ (rg_to_lb_of hdr' false) _ _ reads').
Qed.

Lemma candidate_names need rg_to_lb rg_to_lb' rgs_data read read' :
  query_name read = query_name read' →
  candidate need false rg_to_lb rgs_data read =
  candidate need false rg_to_lb' rgs_data read'.
Proof.
  intros Hn. destruct rgs_data as [|template rgs_data].
  - by rewrite !candidate_nil.
  - destruct need.
    + rewrite !candidate_first_pass. f_equal. by apply resolved_for_names.
    + by rewrite !candidate_literal.
Qed.

Lemma query_name_assign_tag rg_id read :
  query_name (assign_tag rg_id read) = query_name read.
Proof. by destruct rg_id as [[|c id]|]. Qed.

Lemma assign_tag_idemp rg_id read :
  assign_tag rg_id (assign_tag rg_id read) = assign_tag rg_id read.
Proof.
  destruct rg_id as [[|c id]|]; [done| |done]. destruct read as [n t a].
  unfold assign_tag, set_tag. simpl. by rewrite insert_insert_eq.
Qed.

Lemma rewrite_header_idemp hdr final strip_pg :
  rewrite_header (rewrite_header hdr final strip_pg) final strip_pg =
  rewrite_header hdr final strip_pg.
Proof.
  rewrite !rewrite_header_eq. destruct strip_pg.
  - rewrite delete_insert_ne by done. rewrite insert_insert_eq.
    f_equal. apply delete_id, lookup_delete_eq.
  - by rewrite insert_insert_eq.
Qed.

(** X13. Without library preservation a run on its own output reproduces
    it: the same header, the same records, the same counts. *)
Theorem rerun_reproduces (hdr : header) (reads : list AlignedSegment)
    (rgs_data : list attrs) (strip_pg : bool) :
  ∃ res,
    process_bam hdr reads rgs_data false strip_pg = Some res ∧
    process_bam (out_header res) (out_reads res) rgs_data false strip_pg = Some res.
Proof.
  eexists. split; [apply process_bam_Some|].
  cbn [out_header out_reads]. rewrite process_bam_Some.
  set (need := need_pass1 rgs_data false).
  set (out := rewritten need false (rg_to_lb_of hdr false) rgs_data <$> reads).
  assert (Forall2 (λ read read', query_name read = query_name read') reads out) as Hn.
  { apply Forall2_fmap_r, Forall_Forall2_diag, Forall_forall. intros read _.
    unfold rewritten. symmetry. apply query_name_assign_tag. }
  assert (rewritten need false
            (rg_to_lb_of (rewrite_header hdr (final_rgs hdr reads rgs_data false)
                                         strip_pg) false) rgs_data <$> out = out) as ->.
  { unfold out. rewrite <-list_fmap_compose. apply list_fmap_ext.
    intros i read _. unfold compose, rewritten.
    rewrite (candidate_names need _ (rg_to_lb_of hdr false) rgs_data _ read)
      by apply query_name_assign_tag.
    apply assign_tag_idemp. }
  do 2 f_equal.
  rewrite <-(final_rgs_names hdr _ rgs_data reads out) by done.
  apply rewrite_header_idemp.
Qed.

(** With library preservation a second run can rename the groups of the
    first: a template with its own [LB] tags an untagged record "new", and
    the next run finds that library in the header and makes it "new.foo". *)
Example rerun_with_library_renames :
  process_bam ∅ [mkRead "readA" ∅ "aln"]
    [ {[ "ID" := "new"; "LB" := "foo" ]} ] true false =
  Some {| out_header := {[ "RG" := Lines [ {[ "ID" := "new"; "LB" := "foo" ]} ] ]};
          out_reads := [mkRead "readA" {[ "RG" := "new" ]} "aln"];
          out_counts := [("new", 1)] |} ∧
  process_bam {[ "RG" := Lines [ {[ "ID" := "new"; "LB" := "foo" ]} ] ]}
    [mkRead "readA" {[ "RG" := "new" ]} "aln"]
    [ {[ "ID" := "new"; "LB" := "foo" ]} ] true false =
  Some {| out_header :=
            {[ "RG" := Lines [ {[ "ID" := "new.foo"; "LB" := "foo" ]} ] ]};
          out_reads := [mkRead "readA" {[ "RG" := "new.foo" ]} "aln"];
          out_counts := [("new.foo", 1)] |}.
Proof. split; by vm_compute. Qed.

Lemma zip_with_fmap_Forall2 {A B C} (f : B → A → C) (g g' : A → B) (l l' : list A) :
  Forall2 (λ x x', g x = g' x') l l' →
  zip_with f (g <$> l) l' = (λ x', f (g' x') x') <$> l'.
Proof.
  induction 1 as [|x x' l l' Hx _ IH]; [done|].
  rewrite !fmap_cons. cbn [zip_with]. by rewrite IH, Hx.
Qed.

(** X14. Without library preservation only the names of the records
    matter: two containers whose records have the same names in the same
    order get the same read groups in the header and, record by record, the
    same assignment, whatever their headers and tags were. *)
Theorem names_decide (hdr hdr' : header) (reads reads' : list AlignedSegment)
    (rgs_data : list attrs) (strip_pg strip_pg' : bool) :
  query_name <$> reads = query_name <$> reads' →
  ∃ res res' rg_ids,
    process_bam hdr reads rgs_data false strip_pg = Some res ∧
    process_bam hdr' reads' rgs_data false strip_pg' = Some res' ∧
    header_RG (out_header res) = header_RG (out_header res') ∧
    length rg_ids = length reads ∧
    out_reads res = zip_with assign_tag rg_ids reads ∧
    out_reads res' = zip_with assign_tag rg_ids reads'.
Proof.
  intros Hnames.
  assert (Forall2 (λ read read', query_name read = query_name read') reads reads') as Hn.
  { revert reads' Hnames. induction reads as [|r reads IH]; intros [|r' reads'] Hn;
      try done. injection Hn as Hr Hn. constructor; auto. }
  eexists _, _,
    (candidate (need_pass1 rgs_data false) false (rg_to_lb_of hdr false) rgs_data
       <$> reads).
  split; [apply process_bam_Some|]. split; [apply process_bam_Some|].
  cbn [out_header out_reads]. rewrite !header_RG_rewrite. split_and!.
  - by rewrite (final_rgs_names hdr hdr' rgs_data reads reads').
  - by rewrite length_fmap.
  - symmetry. apply (zip_with_fmap_Forall2 assign_tag).
    apply Forall_Forall2_diag, Forall_forall. done.
  - symmetry. apply (zip_with_fmap_Forall2 assign_tag).
    eapply Forall2_impl; [done|]. intros r r' Hr. by apply candidate_names.
Qed.

Lemma names_decide_witness :
  ∃ res res',
    process_bam ∅ [mkRead "a:b:FC1:2" ∅ "x"]
      [ {[ "ID" := "[FLOWCELL]" ]} ] false false = Some res ∧
    process_bam {[ "RG" := Lines [ {[ "ID" := "old"; "LB" := "lib" ]} ] ]}
      [mkRead "a:b:FC1:2" {[ "RG" := "old"; "LB" := "lib" ]} "y"]
      [ {[ "ID" := "[FLOWCELL]" ]} ] false true = Some res' ∧
    header_RG (out_header res) = header_RG (out_header res').
Proof.
  destruct (names_decide ∅ {[ "RG" := Lines [ {[ "ID" := "old"; "LB" := "lib" ]} ] ]}
              [mkRead "a:b:FC1:2" ∅ "x"]
              [mkRead "a:b:FC1:2" {[ "RG" := "old"; "LB" := "lib" ]} "y"]
              [ {[ "ID" := "[FLOWCELL]" ]} ] false true)
    as (res & res' & _ & Hres & Hres' & Hhdr & _); [reflexivity|].
  exists res, res'. split_and!; [exact Hres|exact Hres'|exact Hhdr].
Defined.

(** ** Tags that are not overrides *)

Lemma foldl_override_no_colon extra_tags tags :
  Forall (λ t, PyStr.contains ":" t = false) tags →
  foldl override extra_tags tags = extra_tags.
Proof.
  induction 1 as [|t tags Ht _ IH]; [done|]. cbn [foldl].
  unfold override at 2. by rewrite parse_tag_no_colon.
Qed.

(** X15. When the only configuration is [--tag] strings and none of them has
    a colon, the configuration check passes and [process_bam] is handed one
    empty template.  In a completed run without library preservation every
    record is then written as it was read, the counts are those of the tags
    the records came with, and the header has lost its read groups. *)
Theorem tags_without_colon (tag : string) (tag_strs : list string) (hdr : header)
    (reads : list AlignedSegment) (strip_pg : bool) (res : result) :
  Forall (λ t, PyStr.contains ":" t = false) (tag :: tag_strs) →
  process_bam hdr reads [∅] false strip_pg = Some res →
  main_rgs_data None (Some (tag :: tag_strs)) = Some (Some [∅]) ∧
  out_header res = <["RG" := Lines []]> (if strip_pg then delete "PG" hdr else hdr) ∧
  header_RG (out_header res) = [] ∧
  out_reads res = reads ∧
  ∀ bucket,
    default 0 (PyDict.get (out_counts res) bucket) =
    length (filter (λ read, bucket = match tags read !! "RG" with
                                      | Some rg => rg
                                      | None => "None"
                                      end) reads).
Proof.
  intros Hall. rewrite process_bam_Some. intros [= <-].
  cbn [out_header out_reads out_counts].
  assert (main_rgs_data None (Some (tag :: tag_strs)) = Some (Some [∅])) as Hdata.
  { unfold main_rgs_data. rewrite merge_tags_Some, foldl_override_no_colon by done.
    by rewrite fmap_cons, (left_id_L ∅ (∪)). }
  change (need_pass1 [∅] false) with false.
  change (final_rgs hdr reads [∅] false) with (@nil (string * attrs)).
  assert (rewritten false false ∅ [∅] <$> reads = reads) as ->.
  { rewrite <-(list_fmap_id reads) at 2. apply list_fmap_ext. by intros i read _. }
  rewrite header_RG_rewrite, rewrite_header_eq. split_and!; [done..|].
  intros bucket. by rewrite get_foldl_increment, length_filter_fmap.
Qed.

Lemma tags_without_colon_witness :
  main_rgs_data None (Some ["ID=x"; "SM"]) = Some (Some [∅]) ∧
  out_reads {| out_header := {[ "RG" := Lines [] ]};
               out_reads := [mkRead "readA" {[ "RG" := "old" ]} "aln"];
               out_counts := [("old", 1)] |} =
  [mkRead "readA" {[ "RG" := "old" ]} "aln"].
Proof.
  destruct (tags_without_colon "ID=x" ["SM"]
              {[ "RG" := Lines [ {[ "ID" := "old" ]} ] ]}
              [mkRead "readA" {[ "RG" := "old" ]} "aln"] false
              {| out_header := {[ "RG" := Lines [] ]};
                 out_reads := [mkRead "readA" {[ "RG" := "old" ]} "aln"];
                 out_counts := [("old", 1)] |})
    as (Hdata & _ & _ & Hreads & _); [repeat constructor|by vm_compute|].
  split; [exact Hdata|exact Hreads].
Defined.

(** ** The library a record brings *)

(** X16. With library preservation the [LB] tag of a record decides its
    library, whatever the header's index holds for its read group and
    whatever [LB] the template has: the mapping resolved from the first
    template has this [LB], its [ID] is the resolved [ID] of the template
    followed by a dot and the library (the library alone for a template
    without [ID]), the record is written with this identifier unless it is
    empty, and the header has a read group with it. *)
Theorem own_library_wins (hdr : header) (reads : list AlignedSegment) (i : nat)
    (read : AlignedSegment) (lb : string) (template : attrs) (rgs_data : list attrs)
    (strip_pg : bool) :
  reads !! i = Some read →
  get_tag read "LB" = Some lb →
  ∃ res fc lane resolved id,
    process_bam hdr reads (template :: rgs_data) true strip_pg = Some res ∧
    get_flowcell_lane (query_name read) = Some (fc, lane) ∧
    id = match resolve_rg template fc lane !! "ID" with
         | Some template_id => template_id +:+ "." +:+ lb
         | None => lb
         end ∧
    pass2_assign true true (rg_to_lb_of hdr true) (template :: rgs_data) read =
      Some (Some id, resolved) ∧
    resolved !! "LB" = Some lb ∧
    out_reads res !! i = Some (if decide (id = "") then read else set_tag read "RG" id) ∧
    ∃ entry, entry ∈ header_RG (out_header res) ∧ entry !! "ID" = Some id.
Proof.
  intros Hi Hlb.
  assert (need_pass1 (template :: rgs_data) true = true) as Hneed by apply orb_true_r.
  assert (pass1_current_lb true (rg_to_lb_of hdr true) read = Some lb) as Hcur.
  { unfold pass1_current_lb. by rewrite Hlb. }
  set (fc := (flowcell_lane (query_name read)).1).
  set (lane := (flowcell_lane (query_name read)).2).
  set (id := match resolve_rg template fc lane !! "ID" with
             | Some template_id => template_id +:+ "." +:+ lb
             | None => lb
             end).
  assert (resolved_for true (rg_to_lb_of hdr true) read template !! "ID" = Some id
          ∧ resolved_for true (rg_to_lb_of hdr true) read template !! "LB" = Some lb)
    as [Hid Hrlb].
  { unfold resolved_for, pass1_resolved. rewrite Hcur. fold fc lane.
    rewrite lookup_insert_ne by done. unfold id.
    destruct (resolve_rg template fc lane !! "ID");
      rewrite lookup_insert_eq, lookup_insert_ne by done;
      by rewrite lookup_insert_eq. }
  eexists _, fc, lane, _, id. split; [apply process_bam_Some|].
  cbn [out_header out_reads]. rewrite Hneed. split_and!.
  - rewrite get_flowcell_lane_Some. unfold fc, lane. by destruct (flowcell_lane _).
  - done.
  - by rewrite pass2_assign_first_pass, Hid.
  - done.
  - rewrite list_lookup_fmap, Hi. cbn [fmap option_fmap option_map]. f_equal.
    unfold rewritten. rewrite candidate_first_pass, Hid.
    destruct id as [|c id']; [done|]. by rewrite decide_False.
  - apply (candidate_registered hdr reads (template :: rgs_data) true strip_pg read id).
    + by eapply list_elem_of_lookup_2.
    + by rewrite Hneed, candidate_first_pass.
Qed.

Lemma own_library_wins_witness :
  ∃ res,
    process_bam {[ "RG" := Lines [ {[ "ID" := "rg1"; "LB" := "libH" ]} ] ]}
      [mkRead "a:b:FC1:2" {[ "RG" := "rg1"; "LB" := "libR" ]} "aln"]
      [ {[ "ID" := "[FLOWCELL]"; "LB" := "libT" ]} ] true false = Some res ∧
    out_reads res !! 0 =
      Some (mkRead "a:b:FC1:2" {[ "RG" := "FC1.libR"; "LB" := "libR" ]} "aln").
Proof.
  destruct (own_library_wins
              {[ "RG" := Lines [ {[ "ID" := "rg1"; "LB" := "libH" ]} ] ]}
              [mkRead "a:b:FC1:2" {[ "RG" := "rg1"; "LB" := "libR" ]} "aln"] 0
              (mkRead "a:b:FC1:2" {[ "RG" := "rg1"; "LB" := "libR" ]} "aln")
              "libR" {[ "ID" := "[FLOWCELL]"; "LB" := "libT" ]} [] false)
    as (res & fc & lane & resolved & id & Hres & Hfl & Hid & _ & _ & Hout & _);
    [reflexivity..|].
  exists res. split; [exact Hres|].
  vm_compute in Hfl. injection Hfl as <- <-. rewrite Hout, Hid. by vm_compute.
Defined.
